(** * Parallax xhash: ASERT retargeting, compact target codec, supply figures

    A shallow embedding of
    - [consensus/xhash/asert.go]       ([ASERTNextTarget]),
    - [consensus/xhash/asert_test.go]  ([bitsToTargetBCH], [targetToBitsBCH]),
    - the xhash RPC API                ([GetTotalSupply], [GetCirculatingSupply]),
    together with the properties the specification states about them.

    Conventions.  A Go [int64], [uint64] or [uint32] is a [Z] together with
    its wrap-around, written out at every arithmetic operation.  A [*big.Int]
    is a [Z].  A call that may panic returns a [result]. *)

From Stdlib Require Import ZArith Lia List String.
From Stdlib Require Import DecimalString DecimalPos DecimalZ.
Import ListNotations.
Local Open Scope Z_scope.

(** ** Fixed-width integers of Go *)

Module GoInt.

(** Two's-complement wrap of a mathematical integer into [int64]. *)
Definition int64 (z : Z) : Z := (z + 2 ^ 63) mod 2 ^ 64 - 2 ^ 63.

(** Wrap into [uint64] and [uint32]; also the conversions [uint64(x)],
    [uint(x)] (on a 64-bit platform) and [uint32(x)]. *)
Definition uint64 (z : Z) : Z := z mod 2 ^ 64.
Definition uint32 (z : Z) : Z := z mod 2 ^ 32.

Definition isInt64 (z : Z) : Prop := - 2 ^ 63 <= z < 2 ^ 63.
Definition isUint64 (z : Z) : Prop := 0 <= z < 2 ^ 64.
Definition isUint32 (z : Z) : Prop := 0 <= z < 2 ^ 32.

End GoInt.
Import GoInt.

(** ** Calls that may panic *)

Inductive result (A : Type) : Type :=
| Returns (a : A)
| Panics (msg : string).
Arguments Returns {A} a.
Arguments Panics {A} msg.

(** ** [asert.go] *)

Definition asertIdealBlockTime : Z := 600.
Definition asertHalflife : Z := 172800.
Definition asertRadix : Z := Z.shiftl 1 16.

Definition asertPolyA : Z := 195766423245049.
Definition asertPolyB : Z := 971821376.
Definition asertPolyC : Z := 5127.

(** Lines 50-55: the signed 16.16 exponent.  Go's [/] on [int64] truncates
    toward zero ([Z.quot]); every other operation wraps. *)
Definition asertExponent
    (anchorHeight anchorParentTime evalHeight evalTime : Z) : Z :=
  let timeDelta := int64 (evalTime - anchorParentTime) in
  let heightDelta := int64 (evalHeight - anchorHeight) in
  let numBlocks := int64 (heightDelta + 1) in
  int64 (Z.quot
           (int64 (int64 (timeDelta - int64 (asertIdealBlockTime * numBlocks))
                   * asertRadix))
           asertHalflife).

(** Line 57: [exponent >> 16] on [int64] is an arithmetic shift. *)
Definition asertNumShifts (exponent : Z) : Z := Z.shiftr exponent 16.

(** Line 60: [exponent -= numShifts * asertRadix]. *)
Definition asertFrac (exponent : Z) : Z :=
  int64 (exponent - int64 (asertNumShifts exponent * asertRadix)).

(** Lines 69-72: the cubic, in [uint64] arithmetic. *)
Definition asertPoly (ux : Z) : Z :=
  let x2 := uint64 (ux * ux) in
  let x3 := uint64 (x2 * ux) in
  uint64 (uint64 (uint64 (uint64 (asertPolyA * ux) + uint64 (asertPolyB * x2))
                  + uint64 (asertPolyC * x3))
          + uint64 (Z.shiftl 1 47)).

(** Line 73. *)
Definition asertFactor (ux : Z) : Z :=
  uint64 (Z.shiftr (asertPoly ux) 48 + uint64 asertRadix).

(** Lines 78-84: [next.Rsh] by [uint(-numShifts)], [next.Lsh] by
    [uint(numShifts)]. *)
Definition asertShift (next numShifts : Z) : Z :=
  if numShifts <? 0 then Z.shiftr next (uint64 (int64 (- numShifts)))
  else if 0 <? numShifts then Z.shiftl next (uint64 numShifts)
  else next.

(** Lines 50-87: the value of [next] just before the clamp. *)
Definition asertUnclamped
    (anchorHeight anchorParentTime anchorTarget evalHeight evalTime : Z) : Z :=
  let exponent :=
    asertExponent anchorHeight anchorParentTime evalHeight evalTime in
  let numShifts := asertNumShifts exponent in
  let exponent := asertFrac exponent in
  let ux := uint64 exponent in
  let factor := asertFactor ux in
  let next := anchorTarget * factor in
  let next := asertShift next numShifts in
  Z.shiftr next 16.

(** Lines 89-97. *)
Definition asertClamp (next maxTarget : Z) : Z :=
  if next <=? 0 then 1
  else if next >? maxTarget then maxTarget
  else next.

Definition ASERTNextTarget
    (anchorHeight anchorParentTime anchorTarget evalHeight evalTime
       maxTarget : Z) : result Z :=
  if anchorHeight <=? 0 then
    Panics "ASERTNextTarget: anchorHeight must be > 0"
  else if anchorTarget <=? 0 then
    Panics "ASERTNextTarget: anchorTarget must be > 0"
  else if maxTarget <=? 0 then
    Panics "ASERTNextTarget: maxTarget must be > 0"
  else
    Returns
      (asertClamp
         (asertUnclamped anchorHeight anchorParentTime anchorTarget
            evalHeight evalTime)
         maxTarget).

(** Modelled from the spec: [two256m1] is declared outside the files at
    hand; the comments of [difficultyToTarget] and [targetToDifficulty] and
    the specification give its value, [2^256 - 1]. *)
Definition two256m1 : Z := 2 ^ 256 - 1.

(** Lines 100-111.  [big.Int.Div] is Euclidean division; the divisor is
    positive here. *)
Definition difficultyToTarget (d : Z) : Z :=
  if d <=? 0 then 1
  else
    let t := two256m1 / d in
    if t <=? 0 then 1 else t.

(** Lines 113-124. *)
Definition targetToDifficulty (t : Z) : Z :=
  if t <=? 0 then 1
  else
    let d := two256m1 / t in
    if d <=? 0 then 1 else d.

(** The cubic over the integers, without any wrap. *)
Definition asertPolyExact (ux : Z) : Z :=
  asertPolyA * ux + asertPolyB * ux ^ 2 + asertPolyC * ux ^ 3 + 2 ^ 47.

(** ** [math/big] operations used by the code *)

(** [x.BitLen()]: the length of the absolute value in bits, [0] for [0]. *)
Definition BitLen (x : Z) : Z :=
  if x =? 0 then 0 else Z.log2 (Z.abs x) + 1.

(** [x.Uint64()]: the low 64 bits of the absolute value. *)
Definition bigUint64 (x : Z) : Z := uint64 (Z.abs x).

(** [x.String()]: the decimal representation, with a leading [-] below
    zero. *)
Definition bigString (x : Z) : string := NilZero.string_of_int (Z.to_int x).

(** Reading a decimal string back as an integer, to compare returned
    strings as numbers. *)
Definition parseDecimal (s : string) : option Z :=
  option_map Z.of_int (NilZero.int_of_string s).

(** ** [asert_test.go]: the compact (nBits) codec *)

Definition asertMaxBits : Z := 0x1d00ffff.

Definition bitsToTargetBCH (bits : Z) : Z :=
  let size := Z.shiftr bits 24 in
  let mant := Z.land bits 0x007fffff in
  let target := mant in
  if size <=? 3 then
    let shift := uint64 (uint32 (8 * uint32 (3 - size))) in
    Z.shiftr target shift
  else
    let shift := uint64 (uint32 (8 * uint32 (size - 3))) in
    Z.shiftl target shift.

Definition targetToBitsBCH (target : Z) : result Z :=
  if target <=? 0 then Panics "invalid target sign"
  else
    let t := target in
    let maxTarget := bitsToTargetBCH asertMaxBits in
    let t := if t >? maxTarget then maxTarget else t in
    let size := uint32 (Z.quot (BitLen t + 7) 8) in
    let compact :=
      if size <=? 3 then
        let shift := uint64 (uint32 (8 * uint32 (3 - size))) in
        let tmp := Z.shiftl t shift in
        uint32 (bigUint64 tmp)
      else
        let shift := uint64 (uint32 (8 * uint32 (size - 3))) in
        let tmp := Z.shiftr t shift in
        uint32 (bigUint64 tmp) in
    let '(compact, size) :=
      if negb (Z.land compact 0x00800000 =? 0)
      then (Z.shiftr compact 8, uint32 (size + 1))
      else (compact, size) in
    let compact := Z.land compact 0x007fffff in
    Returns (Z.lor compact (uint32 (Z.shiftl size 24))).

(** The two halves of a compact value. *)
Definition compactSize (bits : Z) : Z := Z.shiftr bits 24.
Definition compactMantissa (bits : Z) : Z := Z.land bits 0x00ffffff.

(** Normal form as the specification words it: a 32-bit value whose
    mantissa has its high bit (bit 23) clear and whose size is positive. *)
Definition specNormalForm (b : Z) : Prop :=
  isUint32 b /\ Z.testbit b 23 = false /\ 0 < compactSize b.

(** The values [targetToBitsBCH] can produce: the mantissa lies in
    [[0x008000, 0x7fffff]] (high bit clear, no spare leading zero byte),
    a size below 3 drops no non-zero mantissa byte, and the value does not
    exceed [asertMaxBits]. *)
Definition canonicalCompact (b : Z) : Prop :=
  0 < compactSize b
  /\ 0x008000 <= compactMantissa b <= 0x7fffff
  /\ (compactSize b < 3 ->
      compactMantissa b mod 2 ^ (8 * (3 - compactSize b)) = 0)
  /\ b <= asertMaxBits.

(** ** The xhash API: supply figures *)

Definition halvingInterval : Z := 210000.
Definition coinbaseMaturity : Z := 100.

(** [for era := range fullEras]: the values [0, 1, ..., fullEras-1]. *)
Definition eraRange (fullEras : Z) : list Z :=
  map Z.of_nat (seq 0 (Z.to_nat fullEras)).

Section Supply.

(** [calcBlockReward] is defined elsewhere in the package; the supply
    functions only call it. *)
Variable calcBlockReward : Z -> Z.

(** Lines 127-156 of the API file: the emissions for [n] blocks. *)
Definition totalEmissions (n : Z) : Z :=
  let fullEras := n / halvingInterval in
  let remainder := n mod halvingInterval in
  let emissions :=
    fold_left
      (fun emissions era =>
         let sampleBlock := uint64 (era * halvingInterval) in
         let reward := calcBlockReward sampleBlock in
         let tmp := halvingInterval in
         let tmp := tmp * reward in
         emissions + tmp)
      (eraRange fullEras) 0 in
  if 0 <? remainder then
    let sampleBlock := uint64 (fullEras * halvingInterval) in
    let sampleBlock := if sampleBlock =? 0 then 1 else sampleBlock in
    let reward := calcBlockReward sampleBlock in
    let tmp := remainder in
    let tmp := tmp * reward in
    emissions + tmp
  else emissions.

(** Lines 183-216: the emissions for [n] matured blocks. *)
Definition maturedEmissions (n : Z) : Z :=
  let fullEras := n / halvingInterval in
  let remainder := n mod halvingInterval in
  let emissions :=
    fold_left
      (fun emissions era =>
         let sampleBlock := uint64 (era * halvingInterval) in
         let sampleBlock := if sampleBlock =? 0 then 1 else sampleBlock in
         let reward := calcBlockReward sampleBlock in
         let tmp := halvingInterval in
         let tmp := tmp * reward in
         emissions + tmp)
      (eraRange fullEras) 0 in
  if 0 <? remainder then
    let sampleBlock := uint64 (fullEras * halvingInterval) in
    let sampleBlock := if sampleBlock =? 0 then 1 else sampleBlock in
    let reward := calcBlockReward sampleBlock in
    let tmp := remainder in
    let tmp := tmp * reward in
    emissions + tmp
  else emissions.

(** [header] is [api.chain.CurrentHeader()]: [None] for [nil], otherwise
    the header's [Number]. *)
Definition GetTotalSupply (header : option Z) : string :=
  match header with
  | None => "0"
  | Some number =>
      let n := bigUint64 number in
      bigString (totalEmissions n)
  end.

Definition GetCirculatingSupply (header : option Z) : string :=
  match header with
  | None => "0"
  | Some number =>
      let height := bigUint64 number in
      if height <=? coinbaseMaturity then "0"
      else
        let maturedHeight := uint64 (height - coinbaseMaturity) in
        let n := maturedHeight in
        bigString (maturedEmissions n)
  end.

(** What both functions add for the eras after the first full one and
    for the partial era behind it: every sample is at or above
    [halvingInterval]. *)
Definition laterEras (n : Z) : Z :=
  let fullEras := n / halvingInterval in
  let remainder := n mod halvingInterval in
  fold_left
    (fun emissions era =>
       emissions + halvingInterval * calcBlockReward (era * halvingInterval))
    (tl (eraRange fullEras)) 0
  + remainder * calcBlockReward (fullEras * halvingInterval).

End Supply.

(** Two reward schedules to run the supply functions on: 50 coins, halved
    every [halvingInterval] blocks; the second one pays nothing for the
    genesis block. *)
Definition halvingReward (block : Z) : Z :=
  Z.shiftr 50 (block / halvingInterval).

Definition genesisFreeReward (block : Z) : Z :=
  if block =? 0 then 0 else halvingReward block.

(** ** Facts about the machine integers *)

Section Wrap.

Lemma uint64_small z : 0 <= z < 2 ^ 64 -> uint64 z = z.
Proof. intros H. unfold uint64. now apply Z.mod_small. Qed.

Lemma uint32_small z : 0 <= z < 2 ^ 32 -> uint32 z = z.
Proof. intros H. unfold uint32. now apply Z.mod_small. Qed.

Lemma int64_small z : isInt64 z -> int64 z = z.
Proof.
  unfold isInt64, int64. intros H.
  rewrite Z.mod_small by lia. lia.
Qed.

Lemma int64_range z : isInt64 (int64 z).
Proof.
  unfold isInt64, int64.
  pose proof (Z.mod_pos_bound (z + 2 ^ 63) (2 ^ 64) ltac:(lia)). lia.
Qed.

(** [int64] is the identity modulo [2^64]: wraps inside a sum, a
    difference or a product can be dropped under an outer wrap. *)
Lemma int64_cong a b : a mod 2 ^ 64 = b mod 2 ^ 64 -> int64 a = int64 b.
Proof.
  intros H. unfold int64.
  rewrite (Z.add_mod a), (Z.add_mod b), H by lia. reflexivity.
Qed.

Lemma int64_mod z : int64 z mod 2 ^ 64 = z mod 2 ^ 64.
Proof.
  unfold int64.
  rewrite Zminus_mod, Z.mod_mod by lia.
  rewrite <- Zminus_mod. f_equal. lia.
Qed.

Lemma int64_sub_l a b : int64 (int64 a - b) = int64 (a - b).
Proof.
  apply int64_cong.
  rewrite Zminus_mod, int64_mod, <- Zminus_mod. reflexivity.
Qed.

Lemma int64_sub_r a b : int64 (a - int64 b) = int64 (a - b).
Proof.
  apply int64_cong.
  rewrite Zminus_mod, int64_mod, <- Zminus_mod. reflexivity.
Qed.

Lemma int64_add_l a b : int64 (int64 a + b) = int64 (a + b).
Proof.
  apply int64_cong.
  rewrite Z.add_mod, int64_mod, <- Z.add_mod by lia. reflexivity.
Qed.

Lemma int64_mul_l a b : int64 (int64 a * b) = int64 (a * b).
Proof.
  apply int64_cong.
  rewrite Z.mul_mod, int64_mod, <- Z.mul_mod by lia. reflexivity.
Qed.

Lemma int64_mul_r a b : int64 (a * int64 b) = int64 (a * b).
Proof. rewrite (Z.mul_comm a), int64_mul_l. f_equal. lia. Qed.

End Wrap.

(** ** The cubic never wraps (C4) *)

Section Cubic.

Lemma asertPolyExact_mono a b :
  0 <= a <= b -> asertPolyExact a <= asertPolyExact b.
Proof.
  intros H. unfold asertPolyExact, asertPolyA, asertPolyB, asertPolyC.
  assert (a ^ 2 <= b ^ 2) by (apply Z.pow_le_mono_l; lia).
  assert (a ^ 3 <= b ^ 3) by (apply Z.pow_le_mono_l; lia).
  lia.
Qed.

Lemma asertPolyExact_bound ux :
  0 <= ux < 2 ^ 16 -> 2 ^ 47 <= asertPolyExact ux < 2 ^ 64.
Proof.
  intros H. split.
  - change (2 ^ 47) with (asertPolyExact 0).
    apply asertPolyExact_mono. lia.
  - apply Z.le_lt_trans with (asertPolyExact 65535).
    + apply asertPolyExact_mono. lia.
    + reflexivity.
Qed.

Lemma asertPoly_exact ux :
  0 <= ux < 2 ^ 16 -> asertPoly ux = asertPolyExact ux.
Proof.
  intros H.
  pose proof (asertPolyExact_bound ux H) as Hb.
  unfold asertPolyExact, asertPolyA, asertPolyB, asertPolyC in Hb.
  assert (H2 : 0 <= ux ^ 2 < 2 ^ 32).
  { split; [apply Z.pow_nonneg; lia|].
    change (2 ^ 32) with ((2 ^ 16) ^ 2). apply Z.pow_lt_mono_l; lia. }
  assert (H3 : 0 <= ux ^ 3 < 2 ^ 48).
  { split; [apply Z.pow_nonneg; lia|].
    change (2 ^ 48) with ((2 ^ 16) ^ 3). apply Z.pow_lt_mono_l; lia. }
  unfold asertPoly, asertPolyExact, asertPolyA, asertPolyB, asertPolyC.
  replace (ux * ux) with (ux ^ 2) by ring.
  rewrite (uint64_small (ux ^ 2)) by lia.
  replace (ux ^ 2 * ux) with (ux ^ 3) by ring.
  rewrite (uint64_small (ux ^ 3)) by lia.
  change (Z.shiftl 1 47) with (2 ^ 47).
  rewrite (uint64_small (2 ^ 47)) by lia.
  rewrite (uint64_small (_ * ux)) by lia.
  rewrite (uint64_small (_ * ux ^ 2)) by lia.
  rewrite (uint64_small (_ * ux ^ 3)) by lia.
  rewrite (uint64_small (_ * ux + _ * ux ^ 2)) by lia.
  rewrite (uint64_small (_ * ux + _ * ux ^ 2 + _ * ux ^ 3)) by lia.
  apply uint64_small. lia.
Qed.

Lemma asertFactor_exact ux :
  0 <= ux < 2 ^ 16 -> asertFactor ux = asertPolyExact ux / 2 ^ 48 + 2 ^ 16.
Proof.
  intros H. unfold asertFactor.
  rewrite (asertPoly_exact ux H), Z.shiftr_div_pow2 by lia.
  pose proof (asertPolyExact_bound ux H) as Hb.
  assert (0 <= asertPolyExact ux / 2 ^ 48 < 2 ^ 16).
  { split; [apply Z.div_pos; lia|].
    apply Z.div_lt_upper_bound; lia. }
  change asertRadix with (2 ^ 16).
  rewrite (uint64_small (2 ^ 16)) by lia.
  apply uint64_small. lia.
Qed.

Lemma asertFactor_range ux :
  0 <= ux < 2 ^ 16 -> 2 ^ 16 <= asertFactor ux < 2 ^ 17.
Proof.
  intros H. rewrite (asertFactor_exact ux H).
  pose proof (asertPolyExact_bound ux H) as Hb.
  assert (0 <= asertPolyExact ux / 2 ^ 48 < 2 ^ 16).
  { split; [apply Z.div_pos; lia|].
    apply Z.div_lt_upper_bound; lia. }
  lia.
Qed.

Lemma asertFactor_mono a b :
  0 <= a <= b -> b < 2 ^ 16 -> asertFactor a <= asertFactor b.
Proof.
  intros H Hb.
  rewrite !asertFactor_exact by lia.
  apply Z.add_le_mono_r, Z.div_le_mono; [lia|].
  now apply asertPolyExact_mono.
Qed.

End Cubic.

(** C4.  For every [ux] in [[0, 2^16)] the exact value of the cubic
    [A*ux + B*ux^2 + C*ux^3 + 2^47] is below [2^64], so the [uint64]
    computation [asertPoly] never wraps and equals the exact value, and
    [factor = (poly >> 48) + 2^16] lies in [[2^16, 2^17)]. *)
Theorem asertPoly_never_wraps (ux : Z) :
  0 <= ux < 2 ^ 16 ->
  asertPolyExact ux < 2 ^ 64
  /\ asertPoly ux = asertPolyExact ux
  /\ 2 ^ 16 <= asertFactor ux < 2 ^ 17.
Proof.
  intros H. split; [|split].
  - apply asertPolyExact_bound, H.
  - apply asertPoly_exact, H.
  - apply asertFactor_range, H.
Qed.

Lemma asertPoly_never_wraps_witness :
  0 <= 65535 < 2 ^ 16
  /\ asertPolyExact 65535 < 2 ^ 64
  /\ asertPoly 65535 = asertPolyExact 65535
  /\ 2 ^ 16 <= asertFactor 65535 < 2 ^ 17.
Proof.
  split; [lia | apply (asertPoly_never_wraps 65535); lia].
Defined.

(** ** The clamp and the input contract (C5, C6) *)

Section Contract.

Lemma asertClamp_range next maxTarget :
  0 < maxTarget -> 1 <= asertClamp next maxTarget <= maxTarget.
Proof.
  intros Hmax. unfold asertClamp.
  destruct (Z.leb_spec next 0); [lia|].
  destruct (Z.gtb_spec next maxTarget); lia.
Qed.

Lemma asertClamp_mono a b maxTarget :
  0 < maxTarget -> a <= b -> asertClamp a maxTarget <= asertClamp b maxTarget.
Proof.
  intros Hmax Hab. unfold asertClamp.
  destruct (Z.leb_spec a 0), (Z.leb_spec b 0);
    destruct (Z.gtb_spec a maxTarget), (Z.gtb_spec b maxTarget); lia.
Qed.

Lemma ASERTNextTarget_returns
    anchorHeight anchorParentTime anchorTarget evalHeight evalTime maxTarget :
  0 < anchorHeight -> 0 < anchorTarget -> 0 < maxTarget ->
  ASERTNextTarget anchorHeight anchorParentTime anchorTarget evalHeight
    evalTime maxTarget
  = Returns
      (asertClamp
         (asertUnclamped anchorHeight anchorParentTime anchorTarget
            evalHeight evalTime)
         maxTarget).
Proof.
  intros Hh Ht Hm. unfold ASERTNextTarget.
  destruct (Z.leb_spec anchorHeight 0); [lia|].
  destruct (Z.leb_spec anchorTarget 0); [lia|].
  destruct (Z.leb_spec maxTarget 0); [lia|].
  reflexivity.
Qed.

End Contract.

(** C5.  Under the preconditions [anchorHeight > 0], [anchorTarget > 0],
    [maxTarget > 0], [ASERTNextTarget] returns a target in
    [[1, maxTarget]]: it is [1] when the intermediate result is [<= 0], and
    [maxTarget] when the intermediate result exceeds [maxTarget]. *)
Theorem ASERTNextTarget_clamped
    (anchorHeight anchorParentTime anchorTarget evalHeight evalTime
       maxTarget : Z) :
  0 < anchorHeight -> 0 < anchorTarget -> 0 < maxTarget ->
  let next :=
    asertUnclamped anchorHeight anchorParentTime anchorTarget evalHeight
      evalTime in
  exists target,
    ASERTNextTarget anchorHeight anchorParentTime anchorTarget evalHeight
      evalTime maxTarget = Returns target
    /\ 1 <= target <= maxTarget
    /\ (next <= 0 -> target = 1)
    /\ (maxTarget < next -> target = maxTarget)
    /\ (0 < next <= maxTarget -> target = next).
Proof.
  intros Hh Ht Hm next.
  exists (asertClamp next maxTarget).
  split; [now apply ASERTNextTarget_returns|].
  split; [now apply asertClamp_range|].
  unfold asertClamp.
  destruct (Z.leb_spec next 0); destruct (Z.gtb_spec next maxTarget);
    repeat split; intros; lia.
Qed.

Lemma ASERTNextTarget_clamped_witness :
  exists target,
    ASERTNextTarget 1 0 (2 ^ 40) 1 (600 + 20 * 172800) (2 ^ 50)
    = Returns target
    /\ 1 <= target <= 2 ^ 50.
Proof.
  destruct (ASERTNextTarget_clamped 1 0 (2 ^ 40) 1 (600 + 20 * 172800)
              (2 ^ 50)) as [target [Hret [Hrange _]]]; try lia.
  exists target. split; assumption.
Defined.

(** C6.  [ASERTNextTarget] panics exactly when [anchorHeight <= 0] or
    [anchorTarget <= 0] or [maxTarget <= 0].  On every other input, whatever
    the heights and the timestamps are, it returns, and what it returns is
    computed from the inputs as they were passed. *)
Theorem ASERTNextTarget_panics_iff
    (anchorHeight anchorParentTime anchorTarget evalHeight evalTime
       maxTarget : Z) :
  ((exists msg,
       ASERTNextTarget anchorHeight anchorParentTime anchorTarget evalHeight
         evalTime maxTarget = Panics msg)
   <-> (anchorHeight <= 0 \/ anchorTarget <= 0 \/ maxTarget <= 0))
  /\ (~ (anchorHeight <= 0 \/ anchorTarget <= 0 \/ maxTarget <= 0)
      -> ASERTNextTarget anchorHeight anchorParentTime anchorTarget
           evalHeight evalTime maxTarget
         = Returns
             (asertClamp
                (asertUnclamped anchorHeight anchorParentTime anchorTarget
                   evalHeight evalTime)
                maxTarget)).
Proof.
  split.
  - unfold ASERTNextTarget.
    destruct (Z.leb_spec anchorHeight 0);
      [split; [lia | intros _; eexists; reflexivity]|].
    destruct (Z.leb_spec anchorTarget 0);
      [split; [lia | intros _; eexists; reflexivity]|].
    destruct (Z.leb_spec maxTarget 0);
      [split; [lia | intros _; eexists; reflexivity]|].
    split; [intros [msg Hmsg]; discriminate | lia].
  - intros Hok. apply ASERTNextTarget_returns; lia.
Qed.

(** ** Decoding to zero (C10) *)

Lemma targetToBitsBCH_panics_nonpos target :
  target <= 0 -> targetToBitsBCH target = Panics "invalid target sign".
Proof.
  intros H. unfold targetToBitsBCH.
  destruct (Z.leb_spec target 0); [reflexivity | lia].
Qed.

(** C10.  The compact value [0x00000001] (size 0, mantissa 1, high mantissa
    bit clear) decodes to [0] with [bitsToTargetBCH]; [targetToBitsBCH]
    panics on that result, as it does on every input [<= 0]. *)
Theorem compact_one_decodes_to_zero_and_panics :
  (exists b,
      isUint32 b
      /\ Z.testbit b 23 = false
      /\ compactMantissa b <> 0
      /\ bitsToTargetBCH b = 0
      /\ targetToBitsBCH (bitsToTargetBCH b) = Panics "invalid target sign")
  /\ bitsToTargetBCH 0x00000001 = 0
  /\ forall target,
      target <= 0 -> targetToBitsBCH target = Panics "invalid target sign".
Proof.
  split; [exists 0x00000001; unfold isUint32|]; repeat split;
    try reflexivity; try lia; try discriminate.
  exact targetToBitsBCH_panics_nonpos.
Qed.

(** ** Era sampling in the supply functions (C9) *)

Section EraLoops.

Lemma fold_left_add_init (f : Z -> Z) (l : list Z) (a : Z) :
  fold_left (fun e x => e + f x) l a
  = a + fold_left (fun e x => e + f x) l 0.
Proof.
  revert a. induction l as [|x l IH]; intros a; simpl.
  - lia.
  - rewrite (IH (a + f x)), (IH (f x)). lia.
Qed.

Lemma fold_left_add_ext (f g : Z -> Z) (l : list Z) (a : Z) :
  (forall x, In x l -> f x = g x) ->
  fold_left (fun e x => e + f x) l a = fold_left (fun e x => e + g x) l a.
Proof.
  revert a. induction l as [|x l IH]; intros a Hfg; simpl.
  - reflexivity.
  - rewrite (Hfg x) by (left; reflexivity).
    apply IH. intros y Hy. apply Hfg. right. exact Hy.
Qed.

Lemma eraRange_cons k : 1 <= k -> eraRange k = 0 :: tl (eraRange k).
Proof.
  intros Hk. unfold eraRange.
  destruct (Z.to_nat k) as [|m] eqn:E; [lia | reflexivity].
Qed.

Lemma eraRange_snoc k : 0 <= k -> eraRange (k + 1) = eraRange k ++ [k].
Proof.
  intros Hk. unfold eraRange.
  replace (Z.to_nat (k + 1)) with (S (Z.to_nat k)) by lia.
  rewrite seq_S, map_app. simpl. f_equal. f_equal. lia.
Qed.

Lemma In_eraRange k x : In x (eraRange k) -> 0 <= x < k.
Proof.
  unfold eraRange. rewrite in_map_iff.
  intros [i [Hi Hin]]. apply in_seq in Hin. lia.
Qed.

Lemma In_tl_eraRange k x : In x (tl (eraRange k)) -> 1 <= x < k.
Proof.
  unfold eraRange.
  destruct (Z.to_nat k) as [|m] eqn:E; simpl; [tauto|].
  rewrite in_map_iff.
  intros [i [Hi Hin]]. apply in_seq in Hin. lia.
Qed.

(** A sample taken inside a chain of height [n] does not wrap. *)
Lemma sample_no_wrap n era :
  isUint64 n -> 0 <= era <= n / halvingInterval ->
  uint64 (era * halvingInterval) = era * halvingInterval.
Proof.
  unfold isUint64, halvingInterval. intros Hn He.
  apply uint64_small.
  pose proof (Z.mul_div_le n 210000 ltac:(lia)). nia.
Qed.

Lemma remainder_term n :
  isUint64 n -> halvingInterval <= n ->
  (if uint64 (n / halvingInterval * halvingInterval) =? 0
   then 1 else uint64 (n / halvingInterval * halvingInterval))
  = n / halvingInterval * halvingInterval.
Proof.
  intros Hn Hge.
  assert (1 <= n / halvingInterval).
  { apply Z.div_le_lower_bound; unfold halvingInterval in *; lia. }
  rewrite (sample_no_wrap n) by (auto; lia).
  destruct (Z.eqb_spec (n / halvingInterval * halvingInterval) 0);
    [unfold halvingInterval in *; lia | reflexivity].
Qed.

Variable calcBlockReward : Z -> Z.

Lemma total_loop_first_era n :
  isUint64 n -> halvingInterval <= n ->
  fold_left
    (fun emissions era =>
       emissions
       + halvingInterval * calcBlockReward (uint64 (era * halvingInterval)))
    (eraRange (n / halvingInterval)) 0
  = halvingInterval * calcBlockReward 0
    + fold_left
        (fun emissions era =>
           emissions
           + halvingInterval * calcBlockReward (era * halvingInterval))
        (tl (eraRange (n / halvingInterval))) 0.
Proof.
  intros Hn Hge.
  assert (Hfull : 1 <= n / halvingInterval).
  { apply Z.div_le_lower_bound; unfold halvingInterval in *; lia. }
  rewrite (eraRange_cons _ Hfull) at 1. cbn [fold_left].
  rewrite (fold_left_add_init
             (fun era => halvingInterval
                         * calcBlockReward (uint64 (era * halvingInterval)))).
  rewrite (fold_left_add_ext
             (fun era => halvingInterval
                         * calcBlockReward (uint64 (era * halvingInterval)))
             (fun era => halvingInterval
                         * calcBlockReward (era * halvingInterval))).
  - reflexivity.
  - intros x Hx. apply In_tl_eraRange in Hx.
    rewrite (sample_no_wrap n) by (auto; lia). reflexivity.
Qed.

Lemma matured_loop_first_era n :
  isUint64 n -> halvingInterval <= n ->
  fold_left
    (fun emissions era =>
       emissions
       + halvingInterval
         * calcBlockReward
             (if uint64 (era * halvingInterval) =? 0 then 1
              else uint64 (era * halvingInterval)))
    (eraRange (n / halvingInterval)) 0
  = halvingInterval * calcBlockReward 1
    + fold_left
        (fun emissions era =>
           emissions
           + halvingInterval * calcBlockReward (era * halvingInterval))
        (tl (eraRange (n / halvingInterval))) 0.
Proof.
  intros Hn Hge.
  assert (Hfull : 1 <= n / halvingInterval).
  { apply Z.div_le_lower_bound; unfold halvingInterval in *; lia. }
  rewrite (eraRange_cons _ Hfull) at 1. cbn [fold_left].
  rewrite (fold_left_add_init
             (fun era =>
                halvingInterval
                * calcBlockReward
                    (if uint64 (era * halvingInterval) =? 0 then 1
                     else uint64 (era * halvingInterval)))).
  rewrite (fold_left_add_ext
             (fun era =>
                halvingInterval
                * calcBlockReward
                    (if uint64 (era * halvingInterval) =? 0 then 1
                     else uint64 (era * halvingInterval)))
             (fun era => halvingInterval
                         * calcBlockReward (era * halvingInterval))).
  - reflexivity.
  - intros x Hx. apply In_tl_eraRange in Hx.
    rewrite (sample_no_wrap n) by (auto; lia).
    destruct (Z.eqb_spec (x * halvingInterval) 0);
      [unfold halvingInterval in *; lia | reflexivity].
Qed.

Lemma totalEmissions_first_era n :
  isUint64 n -> halvingInterval <= n ->
  totalEmissions calcBlockReward n
  = halvingInterval * calcBlockReward 0 + laterEras calcBlockReward n.
Proof.
  intros Hn Hge. unfold totalEmissions, laterEras. cbv zeta.
  rewrite (remainder_term n Hn Hge), (total_loop_first_era n Hn Hge).
  destruct (Z.ltb_spec 0 (n mod halvingInterval)) as [Hr|Hr]; [lia|].
  assert (n mod halvingInterval = 0).
  { pose proof (Z.mod_pos_bound n halvingInterval eq_refl). lia. }
  lia.
Qed.

Lemma maturedEmissions_first_era n :
  isUint64 n -> halvingInterval <= n ->
  maturedEmissions calcBlockReward n
  = halvingInterval * calcBlockReward 1 + laterEras calcBlockReward n.
Proof.
  intros Hn Hge. unfold maturedEmissions, laterEras. cbv zeta.
  rewrite (remainder_term n Hn Hge), (matured_loop_first_era n Hn Hge).
  destruct (Z.ltb_spec 0 (n mod halvingInterval)) as [Hr|Hr]; [lia|].
  assert (n mod halvingInterval = 0).
  { pose proof (Z.mod_pos_bound n halvingInterval eq_refl). lia. }
  lia.
Qed.

End EraLoops.

Lemma laterEras_ext (r r' : Z -> Z) (n : Z) :
  (forall block, halvingInterval <= block -> r block = r' block) ->
  halvingInterval <= n ->
  laterEras r n = laterEras r' n.
Proof.
  intros Hrr Hge. unfold laterEras.
  assert (Hfull : 1 <= n / halvingInterval).
  { apply Z.div_le_lower_bound; unfold halvingInterval in *; lia. }
  f_equal.
  - apply (fold_left_add_ext
             (fun era => halvingInterval * r (era * halvingInterval))
             (fun era => halvingInterval * r' (era * halvingInterval))).
    intros x Hx. apply In_tl_eraRange in Hx.
    rewrite Hrr; [reflexivity | unfold halvingInterval; lia].
  - rewrite Hrr; [reflexivity | unfold halvingInterval in *; lia].
Qed.

Section HeaderNumber.

Lemma bigUint64_small n : isUint64 n -> bigUint64 n = n.
Proof.
  unfold isUint64, bigUint64. intros H.
  rewrite Z.abs_eq by lia. now apply uint64_small.
Qed.

Lemma parseDecimal_bigString z : parseDecimal (bigString z) = Some z.
Proof.
  unfold parseDecimal, bigString.
  rewrite NilZero.isi.
  - simpl. now rewrite DecimalZ.of_to.
  - destruct z; simpl; try discriminate.
    intros E. injection E as E. now apply Unsigned.to_uint_nonnil in E.
  - destruct z; simpl; try discriminate.
    intros E. injection E as E. now apply Unsigned.to_uint_nonnil in E.
Qed.

Lemma GetTotalSupply_emissions r tip :
  isUint64 tip ->
  GetTotalSupply r (Some tip) = bigString (totalEmissions r tip).
Proof. intros H. unfold GetTotalSupply. now rewrite bigUint64_small. Qed.

Lemma GetCirculatingSupply_emissions r tip :
  isUint64 tip -> coinbaseMaturity < tip ->
  GetCirculatingSupply r (Some tip)
  = bigString (maturedEmissions r (tip - coinbaseMaturity)).
Proof.
  intros H Hm. unfold GetCirculatingSupply.
  rewrite bigUint64_small by assumption.
  destruct (Z.leb_spec tip coinbaseMaturity); [lia|].
  rewrite uint64_small; [reflexivity|].
  unfold isUint64, coinbaseMaturity in *. lia.
Qed.

Lemma GetCirculatingSupply_immature r tip :
  isUint64 tip -> tip <= coinbaseMaturity ->
  GetCirculatingSupply r (Some tip) = bigString 0.
Proof.
  intros H Hm. unfold GetCirculatingSupply.
  rewrite bigUint64_small by assumption.
  destruct (Z.leb_spec tip coinbaseMaturity); [reflexivity | lia].
Qed.

End HeaderNumber.

(** C9, refuted as stated.  Tip 210050 gives one full halving era, and
    [GetTotalSupply] adds [210000 * reward(0)] for it.  But only 209950
    blocks have matured there, so the full-era loop of
    [GetCirculatingSupply] does not run at all: the figure is
    [209950 * reward(1)], which is below [210000 * reward(1)]. *)
Lemma circulating_full_era_needs_matured_height :
  halvingInterval <= 210050
  /\ 210050 / halvingInterval = 1
  /\ (210050 - coinbaseMaturity) / halvingInterval = 0
  /\ GetTotalSupply halvingReward (Some 210050)
     = bigString (halvingInterval * halvingReward 0
                  + laterEras halvingReward 210050)
  /\ GetCirculatingSupply halvingReward (Some 210050) = "10497500"%string
  /\ parseDecimal (GetCirculatingSupply halvingReward (Some 210050))
     = Some (209950 * halvingReward 1)
  /\ 209950 * halvingReward 1 < halvingInterval * halvingReward 1
  /\ GetCirculatingSupply halvingReward (Some 210050)
     <> bigString (halvingInterval * halvingReward 1
                   + laterEras halvingReward (210050 - coinbaseMaturity)).
Proof.
  repeat split; try reflexivity; vm_compute; discriminate.
Qed.

(** C9, amended.  When the tip gives at least one full halving era
    ([tip >= 210000]), [GetTotalSupply] adds [210000 * reward(0)] for era 0
    (sample block 0).  When the matured height [tip - 100] gives at least
    one full halving era ([tip >= 210100]), [GetCirculatingSupply] adds
    [210000 * reward(1)] for era 0 (sample block 1).  What both add beyond
    era 0, [laterEras], reads the reward only at blocks from
    [halvingInterval] on.  So the replacement of sample 0 by 1 is made for
    full eras in the circulating computation only. *)
Theorem era_zero_sample_asymmetry (calcBlockReward : Z -> Z) (tip : Z) :
  isUint64 tip ->
  (halvingInterval <= tip ->
   GetTotalSupply calcBlockReward (Some tip)
   = bigString (halvingInterval * calcBlockReward 0
                + laterEras calcBlockReward tip))
  /\ (halvingInterval <= tip - coinbaseMaturity ->
      GetCirculatingSupply calcBlockReward (Some tip)
      = bigString (halvingInterval * calcBlockReward 1
                   + laterEras calcBlockReward (tip - coinbaseMaturity)))
  /\ (forall (r' : Z -> Z) (n : Z),
         (forall block,
             halvingInterval <= block -> calcBlockReward block = r' block) ->
         halvingInterval <= n ->
         laterEras calcBlockReward n = laterEras r' n).
Proof.
  intros Htip. split; [|split].
  - intros Hge.
    rewrite GetTotalSupply_emissions by assumption.
    now rewrite totalEmissions_first_era.
  - intros Hge.
    rewrite GetCirculatingSupply_emissions
      by (auto; unfold halvingInterval, coinbaseMaturity in *; lia).
    rewrite maturedEmissions_first_era; auto.
    unfold isUint64, coinbaseMaturity, halvingInterval in *. lia.
  - intros r' n Hrr Hn. now apply laterEras_ext.
Qed.

Lemma era_zero_sample_asymmetry_witness :
  isUint64 420100
  /\ GetTotalSupply genesisFreeReward (Some 420100)
     = bigString (halvingInterval * genesisFreeReward 0
                  + laterEras genesisFreeReward 420100)
  /\ GetCirculatingSupply genesisFreeReward (Some 420100)
     = bigString (halvingInterval * genesisFreeReward 1
                  + laterEras genesisFreeReward (420100 - coinbaseMaturity)).
Proof.
  assert (H : isUint64 420100) by (unfold isUint64; lia).
  split; [exact H|].
  destruct (era_zero_sample_asymmetry genesisFreeReward 420100 H)
    as [Htotal [Hcirc _]].
  split; [apply Htotal | apply Hcirc]; unfold halvingInterval, coinbaseMaturity; lia.
Defined.

(** ** How the supply figures grow with the height *)

Section SupplyGrowth.

Variable calcBlockReward : Z -> Z.

(** One more matured block adds the reward sampled for its era. *)
Lemma maturedEmissions_step n :
  0 <= n -> n + 1 < 2 ^ 64 ->
  maturedEmissions calcBlockReward (n + 1)
  = maturedEmissions calcBlockReward n
    + calcBlockReward
        (if n / halvingInterval * halvingInterval =? 0 then 1
         else n / halvingInterval * halvingInterval).
Proof.
  intros Hn Hlt.
  assert (Hu : isUint64 n) by (unfold isUint64; lia).
  pose proof (Z.div_mod n halvingInterval ltac:(discriminate)) as Hdm.
  pose proof (Z.mod_pos_bound n halvingInterval eq_refl) as Hmb.
  assert (Hq0 : 0 <= n / halvingInterval) by (apply Z.div_pos; [lia|reflexivity]).
  unfold maturedEmissions. cbv zeta.
  set (q := n / halvingInterval) in *.
  set (m := n mod halvingInterval) in *.
  assert (Hs : uint64 (q * halvingInterval) = q * halvingInterval)
    by (apply (sample_no_wrap n); auto; subst q; lia).
  destruct (Z_lt_ge_dec (m + 1) halvingInterval) as [Hin|Hout].
  - assert (Hq : (n + 1) / halvingInterval = q).
    { symmetry. apply (Z.div_unique _ _ q (m + 1)); lia. }
    assert (Hm : (n + 1) mod halvingInterval = m + 1).
    { symmetry. apply (Z.mod_unique _ _ q (m + 1)); lia. }
    rewrite Hq, Hm, Hs.
    destruct (Z.ltb_spec 0 (m + 1)); [|lia].
    destruct (Z.ltb_spec 0 m); [lia|].
    assert (m = 0) by lia. lia.
  - assert (Hq : (n + 1) / halvingInterval = q + 1).
    { symmetry. apply (Z.div_unique _ _ (q + 1) 0);
        unfold halvingInterval in *; lia. }
    assert (Hm : (n + 1) mod halvingInterval = 0).
    { symmetry. apply (Z.mod_unique _ _ (q + 1) 0);
        unfold halvingInterval in *; lia. }
    rewrite Hq, Hm.
    change (0 <? 0) with false. cbv iota.
    rewrite (eraRange_snoc q Hq0), fold_left_app. cbn [fold_left].
    rewrite Hs.
    destruct (Z.ltb_spec 0 m); [|unfold halvingInterval in *; lia].
    assert (m = halvingInterval - 1) by lia. lia.
Qed.

Hypothesis reward_nonneg : forall block, 0 <= calcBlockReward block.

Lemma maturedEmissions_mono_nat (k : nat) n :
  0 <= n -> n + Z.of_nat k < 2 ^ 64 ->
  maturedEmissions calcBlockReward n
  <= maturedEmissions calcBlockReward (n + Z.of_nat k).
Proof.
  induction k as [|k IH]; intros Hn Hlt.
  - rewrite Z.add_0_r. lia.
  - replace (n + Z.of_nat (S k)) with (n + Z.of_nat k + 1) by lia.
    rewrite maturedEmissions_step by lia.
    specialize (IH Hn ltac:(lia)).
    match goal with
    | |- _ <= _ + calcBlockReward ?b => pose proof (reward_nonneg b)
    end.
    lia.
Qed.

Lemma maturedEmissions_mono n1 n2 :
  0 <= n1 <= n2 -> n2 < 2 ^ 64 ->
  maturedEmissions calcBlockReward n1 <= maturedEmissions calcBlockReward n2.
Proof.
  intros H Hlt.
  replace n2 with (n1 + Z.of_nat (Z.to_nat (n2 - n1))) by lia.
  apply maturedEmissions_mono_nat; lia.
Qed.

(** The two functions differ by the era-0 sample only. *)
Lemma totalEmissions_vs_matured n :
  isUint64 n ->
  totalEmissions calcBlockReward n
  = maturedEmissions calcBlockReward n
    - (if halvingInterval <=? n
       then halvingInterval * (calcBlockReward 1 - calcBlockReward 0)
       else 0).
Proof.
  intros Hn. destruct (Z.leb_spec halvingInterval n) as [Hge|Hlt].
  - rewrite totalEmissions_first_era, maturedEmissions_first_era by assumption.
    lia.
  - unfold totalEmissions, maturedEmissions. cbv zeta.
    rewrite (Z.div_small n halvingInterval) by (unfold isUint64 in Hn; lia).
    cbn [eraRange Z.to_nat seq map fold_left]. lia.
Qed.

(** With a genesis reward at least the reward of block 1 the total supply
    grows with the height as well, and covers the circulating supply. *)
Hypothesis genesis_reward : calcBlockReward 1 <= calcBlockReward 0.

Lemma totalEmissions_mono n1 n2 :
  0 <= n1 <= n2 -> n2 < 2 ^ 64 ->
  totalEmissions calcBlockReward n1 <= totalEmissions calcBlockReward n2.
Proof.
  intros H Hlt.
  rewrite !totalEmissions_vs_matured by (unfold isUint64; lia).
  pose proof (maturedEmissions_mono n1 n2 H Hlt).
  destruct (Z.leb_spec halvingInterval n1), (Z.leb_spec halvingInterval n2);
    unfold halvingInterval in *; lia.
Qed.

Lemma maturedEmissions_le_total n :
  coinbaseMaturity <= n -> n < 2 ^ 64 ->
  maturedEmissions calcBlockReward (n - coinbaseMaturity)
  <= totalEmissions calcBlockReward n.
Proof.
  intros Hge Hlt.
  rewrite totalEmissions_vs_matured by (unfold isUint64, coinbaseMaturity in *; lia).
  pose proof (maturedEmissions_mono (n - coinbaseMaturity) n
                ltac:(unfold coinbaseMaturity in *; lia) Hlt).
  destruct (Z.leb_spec halvingInterval n); unfold halvingInterval in *; lia.
Qed.

End SupplyGrowth.

Section SupplyFigures.

Variable calcBlockReward : Z -> Z.
Hypothesis reward_nonneg : forall block, 0 <= calcBlockReward block.

Lemma maturedEmissions_zero : maturedEmissions calcBlockReward 0 = 0.
Proof. reflexivity. Qed.

(** The figure [GetCirculatingSupply] returns, as a number. *)
Lemma GetCirculatingSupply_value tip :
  isUint64 tip ->
  parseDecimal (GetCirculatingSupply calcBlockReward (Some tip))
  = Some (maturedEmissions calcBlockReward (Z.max 0 (tip - coinbaseMaturity))).
Proof.
  intros Htip. destruct (Z_le_gt_dec tip coinbaseMaturity) as [Hle|Hgt].
  - rewrite GetCirculatingSupply_immature by assumption.
    rewrite parseDecimal_bigString, Z.max_l by lia. reflexivity.
  - rewrite GetCirculatingSupply_emissions by (auto; lia).
    rewrite parseDecimal_bigString, Z.max_r by lia. reflexivity.
Qed.

(** X19.  Circulating supply never shrinks as the chain grows, whatever the
    non-negative reward schedule is. *)
Lemma GetCirculatingSupply_monotone h1 h2 :
  isUint64 h1 -> isUint64 h2 -> h1 <= h2 ->
  exists c1 c2,
    parseDecimal (GetCirculatingSupply calcBlockReward (Some h1)) = Some c1
    /\ parseDecimal (GetCirculatingSupply calcBlockReward (Some h2)) = Some c2
    /\ c1 <= c2.
Proof.
  intros H1 H2 Hle.
  do 2 eexists. rewrite !GetCirculatingSupply_value by assumption.
  split; [reflexivity|]. split; [reflexivity|].
  apply maturedEmissions_mono; auto; unfold isUint64, coinbaseMaturity in *; lia.
Qed.

Hypothesis genesis_reward : calcBlockReward 1 <= calcBlockReward 0.

(** X20.  With a non-negative reward schedule whose genesis reward is not
    below the reward of block 1, total supply never shrinks either. *)
Lemma GetTotalSupply_monotone h1 h2 :
  isUint64 h1 -> isUint64 h2 -> h1 <= h2 ->
  exists t1 t2,
    parseDecimal (GetTotalSupply calcBlockReward (Some h1)) = Some t1
    /\ parseDecimal (GetTotalSupply calcBlockReward (Some h2)) = Some t2
    /\ t1 <= t2.
Proof.
  intros H1 H2 Hle.
  do 2 eexists. rewrite !GetTotalSupply_emissions by assumption.
  rewrite !parseDecimal_bigString.
  split; [reflexivity|]. split; [reflexivity|].
  apply totalEmissions_mono; auto; unfold isUint64 in *; lia.
Qed.

(** X21.  With such a schedule, circulating supply stays within total
    supply at every height. *)
Lemma GetCirculatingSupply_le_total h :
  isUint64 h ->
  exists c t,
    parseDecimal (GetCirculatingSupply calcBlockReward (Some h)) = Some c
    /\ parseDecimal (GetTotalSupply calcBlockReward (Some h)) = Some t
    /\ c <= t.
Proof.
  intros Hh.
  do 2 eexists. rewrite GetCirculatingSupply_value by assumption.
  rewrite GetTotalSupply_emissions, parseDecimal_bigString by assumption.
  split; [reflexivity|]. split; [reflexivity|].
  destruct (Z_le_gt_dec h coinbaseMaturity) as [Hle|Hgt].
  - rewrite Z.max_l by lia. rewrite maturedEmissions_zero.
    rewrite <- maturedEmissions_zero.
    rewrite totalEmissions_vs_matured by assumption.
    destruct (Z.leb_spec halvingInterval h);
      [unfold halvingInterval, coinbaseMaturity in *; lia|].
    rewrite Z.sub_0_r.
    apply maturedEmissions_mono; auto; unfold isUint64 in *; lia.
  - rewrite Z.max_r by lia.
    apply maturedEmissions_le_total; auto; unfold isUint64 in *; lia.
Qed.

End SupplyFigures.

(** ** The first halving under a schedule that pays nothing at genesis *)

Section GenesisWithoutReward.

Variable calcBlockReward : Z -> Z.

Lemma totalEmissions_209999 :
  totalEmissions calcBlockReward 209999 = 209999 * calcBlockReward 1.
Proof. reflexivity. Qed.

Lemma totalEmissions_210000 :
  totalEmissions calcBlockReward 210000 = 210000 * calcBlockReward 0.
Proof. reflexivity. Qed.

Lemma maturedEmissions_209900 :
  maturedEmissions calcBlockReward 209900 = 209900 * calcBlockReward 1.
Proof. reflexivity. Qed.

End GenesisWithoutReward.

(** C7.  With a reward function that pays nothing for the genesis block and
    something for block 1, the figure returned by [GetTotalSupply] at tip
    209999 is [209999 * reward(1)], and at tip 210000 it is [0]: total
    supply falls as the height grows. *)
Theorem total_supply_drops_at_first_halving (calcBlockReward : Z -> Z) :
  calcBlockReward 0 = 0 -> 0 < calcBlockReward 1 ->
  exists t1 t2,
    parseDecimal (GetTotalSupply calcBlockReward (Some 209999)) = Some t1
    /\ parseDecimal (GetTotalSupply calcBlockReward (Some 210000)) = Some t2
    /\ t1 = 209999 * calcBlockReward 1
    /\ t2 = 0
    /\ t2 < t1.
Proof.
  intros H0 H1.
  exists (209999 * calcBlockReward 1), 0.
  rewrite !GetTotalSupply_emissions by (unfold isUint64; lia).
  rewrite !parseDecimal_bigString.
  rewrite totalEmissions_209999, totalEmissions_210000, H0.
  repeat split; try reflexivity; lia.
Qed.

Lemma total_supply_drops_at_first_halving_witness :
  GetTotalSupply genesisFreeReward (Some 209999) = "10499950"%string
  /\ GetTotalSupply genesisFreeReward (Some 210000) = "0"%string
  /\ exists t1 t2,
      parseDecimal (GetTotalSupply genesisFreeReward (Some 209999)) = Some t1
      /\ parseDecimal (GetTotalSupply genesisFreeReward (Some 210000)) = Some t2
      /\ t1 = 209999 * genesisFreeReward 1
      /\ t2 = 0
      /\ t2 < t1.
Proof.
  split; [reflexivity|]. split; [reflexivity|].
  apply (total_supply_drops_at_first_halving genesisFreeReward);
    [reflexivity | reflexivity].
Defined.

(** C8.  With such a reward function, at tip 210000 [GetCirculatingSupply]
    returns [209900 * reward(1)] while [GetTotalSupply] returns [0]:
    circulating supply exceeds total supply. *)
Theorem circulating_exceeds_total_at_first_halving (calcBlockReward : Z -> Z) :
  calcBlockReward 0 = 0 -> 0 < calcBlockReward 1 ->
  exists c t,
    parseDecimal (GetCirculatingSupply calcBlockReward (Some 210000)) = Some c
    /\ parseDecimal (GetTotalSupply calcBlockReward (Some 210000)) = Some t
    /\ c = 209900 * calcBlockReward 1
    /\ t = 0
    /\ t < c.
Proof.
  intros H0 H1.
  exists (209900 * calcBlockReward 1), 0.
  rewrite GetCirculatingSupply_emissions
    by (unfold isUint64, coinbaseMaturity; lia).
  rewrite GetTotalSupply_emissions by (unfold isUint64; lia).
  rewrite !parseDecimal_bigString.
  change (210000 - coinbaseMaturity) with 209900.
  rewrite maturedEmissions_209900, totalEmissions_210000, H0.
  repeat split; try reflexivity; lia.
Qed.

Lemma circulating_exceeds_total_at_first_halving_witness :
  GetCirculatingSupply genesisFreeReward (Some 210000) = "10495000"%string
  /\ GetTotalSupply genesisFreeReward (Some 210000) = "0"%string
  /\ exists c t,
      parseDecimal (GetCirculatingSupply genesisFreeReward (Some 210000))
      = Some c
      /\ parseDecimal (GetTotalSupply genesisFreeReward (Some 210000)) = Some t
      /\ c = 209900 * genesisFreeReward 1
      /\ t = 0
      /\ t < c.
Proof.
  split; [reflexivity|]. split; [reflexivity|].
  apply (circulating_exceeds_total_at_first_halving genesisFreeReward);
    [reflexivity | reflexivity].
Defined.

(** ** ASERT: the exponent, its reduction and the shifts *)

Section AsertArithmetic.

Lemma int64_eqm z : eqm (2 ^ 64) (int64 z) z.
Proof. unfold eqm. apply int64_mod. Qed.

(** The exponent's numerator over the integers: the time the chain is
    behind (or ahead of) the ideal schedule. *)
Lemma asertExponent_exact anchorHeight anchorParentTime evalHeight evalTime :
  let drift :=
    evalTime - anchorParentTime
    - asertIdealBlockTime * (evalHeight - anchorHeight + 1) in
  isInt64 (drift * asertRadix) ->
  asertExponent anchorHeight anchorParentTime evalHeight evalTime
  = Z.quot (drift * asertRadix) asertHalflife.
Proof.
  intros drift Hr. unfold asertExponent.
  rewrite int64_mul_l.
  assert (E : eqm (2 ^ 64)
                ((int64 (evalTime - anchorParentTime)
                  - int64 (asertIdealBlockTime
                           * int64 (int64 (evalHeight - anchorHeight) + 1)))
                 * asertRadix)
                (drift * asertRadix)).
  { apply Zmult_eqm; [|apply eqm_refl].
    apply Zminus_eqm; [apply int64_eqm|].
    eapply eqm_trans; [apply int64_eqm|].
    apply Zmult_eqm; [apply eqm_refl|].
    eapply eqm_trans; [apply int64_eqm|].
    apply Zplus_eqm; [apply int64_eqm | apply eqm_refl]. }
  rewrite (int64_cong _ _ E), (int64_small _ Hr).
  apply int64_small.
  unfold isInt64, asertHalflife in *.
  pose proof (Z.quot_le_mono (- 2 ^ 63) (drift * asertRadix) 172800
                ltac:(lia) ltac:(lia)) as Hlo.
  pose proof (Z.quot_le_mono (drift * asertRadix) (2 ^ 63) 172800
                ltac:(lia) ltac:(lia)) as Hhi.
  change (Z.quot (- 2 ^ 63) 172800) with (-53375995583650) in Hlo.
  change (Z.quot (2 ^ 63) 172800) with 53375995583650 in Hhi.
  lia.
Qed.

Lemma asertExponent_isInt64 anchorHeight anchorParentTime evalHeight evalTime :
  isInt64 (asertExponent anchorHeight anchorParentTime evalHeight evalTime).
Proof. unfold asertExponent. apply int64_range. Qed.

Lemma asertNumShifts_div e : asertNumShifts e = e / 2 ^ 16.
Proof. unfold asertNumShifts. now rewrite Z.shiftr_div_pow2 by lia. Qed.

Lemma asertNumShifts_bound e :
  isInt64 e -> - 2 ^ 47 <= asertNumShifts e < 2 ^ 47.
Proof.
  unfold isInt64. intros H. rewrite asertNumShifts_div. split.
  - apply Z.div_le_lower_bound; lia.
  - apply Z.div_lt_upper_bound; lia.
Qed.

(** After the reduction the exponent is the 16-bit fraction, and the
    reinterpretation as [uint64] leaves it as it is. *)
Lemma asertFrac_mod e : isInt64 e -> uint64 (asertFrac e) = e mod 2 ^ 16.
Proof.
  intros H. pose proof (asertNumShifts_bound e H) as Hb.
  unfold asertFrac. change asertRadix with (2 ^ 16).
  rewrite (int64_small (_ * _)) by (unfold isInt64; lia).
  rewrite asertNumShifts_div in *.
  pose proof (Z.div_mod e (2 ^ 16) ltac:(lia)).
  pose proof (Z.mod_pos_bound e (2 ^ 16) ltac:(lia)).
  replace (e - e / 2 ^ 16 * 2 ^ 16) with (e mod 2 ^ 16) by lia.
  rewrite int64_small by (unfold isInt64; lia).
  apply uint64_small. lia.
Qed.

Lemma asertShift_shiftl next n :
  - 2 ^ 63 < n < 2 ^ 63 -> asertShift next n = Z.shiftl next n.
Proof.
  intros H. unfold asertShift.
  destruct (Z.ltb_spec n 0).
  - rewrite int64_small by (unfold isInt64; lia).
    rewrite uint64_small by lia.
    apply Z.shiftr_opp_r.
  - destruct (Z.ltb_spec 0 n).
    + now rewrite uint64_small by lia.
    + replace n with 0 by lia. symmetry. apply Z.shiftl_0_r.
Qed.

Lemma shiftl_then_shiftr a n m :
  0 <= m -> Z.shiftr (Z.shiftl a n) m = Z.shiftl a (n - m).
Proof.
  intros Hm. destruct (Z_le_gt_dec 0 n) as [Hn|Hn].
  - now apply Z.shiftr_shiftl_l.
  - rewrite <- (Z.shiftr_opp_r a (n - m)), <- (Z.shiftr_opp_r a n).
    rewrite Z.shiftr_shiftr by lia. f_equal. lia.
Qed.

(** The value before the clamp, in one formula: the anchor target times
    the factor of the fractional part, shifted by the integral part less
    the 16 bits of scaling. *)
Lemma asertUnclamped_shiftl
    anchorHeight anchorParentTime anchorTarget evalHeight evalTime :
  let e := asertExponent anchorHeight anchorParentTime evalHeight evalTime in
  asertUnclamped anchorHeight anchorParentTime anchorTarget evalHeight evalTime
  = Z.shiftl (anchorTarget * asertFactor (e mod 2 ^ 16)) (e / 2 ^ 16 - 16).
Proof.
  intros e. unfold asertUnclamped. fold e.
  pose proof (asertExponent_isInt64 anchorHeight anchorParentTime evalHeight
                evalTime) as He. fold e in He.
  pose proof (asertNumShifts_bound e He) as Hb.
  rewrite (asertFrac_mod e He).
  rewrite asertShift_shiftl by lia.
  rewrite shiftl_then_shiftr by lia.
  now rewrite asertNumShifts_div.
Qed.

(** A shift by a signed amount as one division. *)
Lemma shiftl_as_div a n k :
  0 <= k -> 0 <= n + k -> Z.shiftl a n = a * 2 ^ (n + k) / 2 ^ k.
Proof.
  intros Hk Hnk. destruct (Z_le_gt_dec 0 n) as [Hn|Hn].
  - rewrite Z.shiftl_mul_pow2, Z.pow_add_r by lia.
    rewrite Z.mul_assoc, Z.div_mul; [reflexivity|].
    apply Z.pow_nonzero; lia.
  - rewrite Z.shiftl_div_pow2 by lia.
    replace k with ((- n) + (n + k)) at 2 by lia.
    rewrite (Z.pow_add_r 2 (- n) (n + k)) by lia.
    rewrite Z.div_mul_cancel_r; [reflexivity| |]; apply Z.pow_nonzero; lia.
Qed.

Lemma shiftl_le_shiftl a n b m :
  (forall k, 0 <= k -> 0 <= n + k -> 0 <= m + k ->
             a * 2 ^ (n + k) <= b * 2 ^ (m + k)) ->
  Z.shiftl a n <= Z.shiftl b m.
Proof.
  intros H.
  set (k := Z.max 0 (Z.max (- n) (- m))).
  rewrite (shiftl_as_div a n k), (shiftl_as_div b m k) by lia.
  apply Z.div_le_mono; [apply Z.pow_pos_nonneg; lia|].
  apply H; lia.
Qed.

(** The scaled target grows with the exponent: within one value of
    [numShifts] because the factor grows with the fraction, across values
    because the factor stays below [2 * 2^16]. *)
Lemma scaled_target_mono anchorTarget e1 e2 :
  0 <= anchorTarget -> e1 <= e2 ->
  Z.shiftl (anchorTarget * asertFactor (e1 mod 2 ^ 16)) (e1 / 2 ^ 16 - 16)
  <= Z.shiftl (anchorTarget * asertFactor (e2 mod 2 ^ 16)) (e2 / 2 ^ 16 - 16).
Proof.
  intros Ht Hle.
  pose proof (Z.mod_pos_bound e1 (2 ^ 16) ltac:(lia)) as Hm1.
  pose proof (Z.mod_pos_bound e2 (2 ^ 16) ltac:(lia)) as Hm2.
  pose proof (Z.div_mod e1 (2 ^ 16) ltac:(lia)) as Hd1.
  pose proof (Z.div_mod e2 (2 ^ 16) ltac:(lia)) as Hd2.
  pose proof (asertFactor_range _ Hm1) as Hf1.
  pose proof (asertFactor_range _ Hm2) as Hf2.
  assert (Hq : e1 / 2 ^ 16 <= e2 / 2 ^ 16) by (apply Z.div_le_mono; lia).
  apply shiftl_le_shiftl. intros k Hk Hk1 Hk2.
  destruct (Z.eq_dec (e1 / 2 ^ 16) (e2 / 2 ^ 16)) as [Heq|Hne].
  - rewrite Heq in *.
    apply Z.mul_le_mono_nonneg_r; [apply Z.pow_nonneg; lia|].
    apply Z.mul_le_mono_nonneg_l; [lia|].
    apply asertFactor_mono; lia.
  - set (p := e1 / 2 ^ 16 - 16 + k) in *.
    replace (e2 / 2 ^ 16 - 16 + k)
      with (p + 1 + (e2 / 2 ^ 16 - e1 / 2 ^ 16 - 1)) by lia.
    rewrite (Z.pow_add_r 2 (p + 1)), (Z.pow_add_r 2 p 1) by lia.
    assert (Hp : 0 < 2 ^ p) by (apply Z.pow_pos_nonneg; lia).
    assert (Hx : 1 <= 2 ^ (e2 / 2 ^ 16 - e1 / 2 ^ 16 - 1)).
    { pose proof (Z.pow_pos_nonneg 2 (e2 / 2 ^ 16 - e1 / 2 ^ 16 - 1)).
      lia. }
    change (2 ^ 1) with 2.
    apply Z.le_trans
      with (anchorTarget * asertFactor (e2 mod 2 ^ 16) * (2 ^ p * 2)).
    + rewrite <- !Z.mul_assoc.
      apply Z.mul_le_mono_nonneg_l; [lia|]. nia.
    + rewrite (Z.mul_assoc _ (2 ^ p * 2)).
      assert (0 <= anchorTarget * asertFactor (e2 mod 2 ^ 16) * (2 ^ p * 2))
        by (apply Z.mul_nonneg_nonneg; [apply Z.mul_nonneg_nonneg|]; lia).
      nia.
Qed.

(** The fraction handed to the cubic is always a 16-bit value, so the
    cubic never wraps inside [ASERTNextTarget]. *)
Lemma asert_ux_range anchorHeight anchorParentTime evalHeight evalTime :
  0 <= uint64 (asertFrac (asertExponent anchorHeight anchorParentTime
                            evalHeight evalTime)) < 2 ^ 16.
Proof.
  rewrite asertFrac_mod by apply asertExponent_isInt64.
  apply Z.mod_pos_bound. lia.
Qed.

(** The shift count is small on every input: the exponent is a quotient by
    [asertHalflife] of an [int64]. *)
Lemma asertNumShifts_small anchorHeight anchorParentTime evalHeight evalTime :
  - 2 ^ 30 < asertNumShifts (asertExponent anchorHeight anchorParentTime
                               evalHeight evalTime) < 2 ^ 30.
Proof.
  unfold asertExponent.
  match goal with
  | |- context [Z.quot (int64 ?x) asertHalflife] =>
      pose proof (int64_range x) as Hx; set (v := int64 x) in *
  end.
  unfold isInt64, asertHalflife in *.
  pose proof (Z.quot_le_mono (- 2 ^ 63) v 172800 ltac:(lia) ltac:(lia)) as Hlo.
  pose proof (Z.quot_le_mono v (2 ^ 63) 172800 ltac:(lia) ltac:(lia)) as Hhi.
  change (Z.quot (- 2 ^ 63) 172800) with (-53375995583650) in Hlo.
  change (Z.quot (2 ^ 63) 172800) with 53375995583650 in Hhi.
  rewrite int64_small by (unfold isInt64; lia).
  rewrite asertNumShifts_div. split.
  - apply Z.lt_le_trans with (-53375995583650 / 2 ^ 16); [reflexivity|].
    apply Z.div_le_mono; lia.
  - apply Z.le_lt_trans with (53375995583650 / 2 ^ 16); [|reflexivity].
    apply Z.div_le_mono; lia.
Qed.

End AsertArithmetic.

(** ** ASERT is monotone in the evaluation time (C3) *)

(** C3, refuted as stated.  All preconditions hold and
    [evalTime1 <= evalTime2], yet the later time gets the smaller target:
    at [evalTime2] the [int64] product [(timeDelta - 600*numBlocks) * 2^16]
    wraps to [-172800 * 2^16], so the exponent is [-2^16] and the target is
    halved. *)
Lemma ASERTNextTarget_not_monotone_when_wrapping :
  isInt64 600 /\ isInt64 (2 ^ 48 - 172200)
  /\ 600 <= 2 ^ 48 - 172200
  /\ ASERTNextTarget 1 0 (2 ^ 32) 1 600 (2 ^ 224) = Returns (2 ^ 32)
  /\ ASERTNextTarget 1 0 (2 ^ 32) 1 (2 ^ 48 - 172200) (2 ^ 224)
     = Returns (2 ^ 31)
  /\ ~ (2 ^ 32 <= 2 ^ 31).
Proof.
  unfold isInt64. repeat split; try reflexivity; try lia; discriminate.
Qed.

(** C3, amended.  If the product [(timeDelta - 600*numBlocks) * 2^16] stays
    within [int64] for both evaluation times, then under the preconditions
    the target returned for the later time is at least the target returned
    for the earlier one, and both lie in [[1, maxTarget]]. *)
Theorem ASERTNextTarget_monotone_in_evalTime
    (anchorHeight anchorParentTime anchorTarget evalHeight evalTime1
       evalTime2 maxTarget : Z) :
  0 < anchorHeight -> 0 < anchorTarget -> 0 < maxTarget ->
  evalTime1 <= evalTime2 ->
  isInt64 ((evalTime1 - anchorParentTime
            - asertIdealBlockTime * (evalHeight - anchorHeight + 1))
           * asertRadix) ->
  isInt64 ((evalTime2 - anchorParentTime
            - asertIdealBlockTime * (evalHeight - anchorHeight + 1))
           * asertRadix) ->
  exists target1 target2,
    ASERTNextTarget anchorHeight anchorParentTime anchorTarget evalHeight
      evalTime1 maxTarget = Returns target1
    /\ ASERTNextTarget anchorHeight anchorParentTime anchorTarget evalHeight
         evalTime2 maxTarget = Returns target2
    /\ target1 <= target2
    /\ 1 <= target1 <= maxTarget
    /\ 1 <= target2 <= maxTarget.
Proof.
  intros Hh Ht Hm Hle Hr1 Hr2.
  do 2 eexists.
  rewrite !ASERTNextTarget_returns by assumption.
  split; [reflexivity|]. split; [reflexivity|].
  split; [|split; now apply asertClamp_range].
  apply asertClamp_mono; [assumption|].
  rewrite !asertUnclamped_shiftl.
  apply scaled_target_mono; [lia|].
  rewrite (asertExponent_exact _ _ _ _ Hr1), (asertExponent_exact _ _ _ _ Hr2).
  apply Z.quot_le_mono; [reflexivity|].
  apply Z.mul_le_mono_nonneg_r; [discriminate | lia].
Qed.

Lemma ASERTNextTarget_monotone_in_evalTime_witness :
  exists target1 target2,
    ASERTNextTarget 1 0 (2 ^ 32) 1 600 (2 ^ 224) = Returns target1
    /\ ASERTNextTarget 1 0 (2 ^ 32) 1 100000 (2 ^ 224) = Returns target2
    /\ target1 <= target2
    /\ 1 <= target1 <= 2 ^ 224
    /\ 1 <= target2 <= 2 ^ 224.
Proof.
  apply (ASERTNextTarget_monotone_in_evalTime 1 0 (2 ^ 32) 1 600 100000
           (2 ^ 224));
    try lia; unfold isInt64; vm_compute;
    (split; [discriminate | reflexivity]).
Defined.

(** ** One half-life later (C2) *)

Section HalfLife.

Lemma exponent_one_halflife_later drift :
  0 <= drift \/ drift + asertHalflife <= 0 \/ drift mod 675 = 0 ->
  Z.quot ((drift + asertHalflife) * asertRadix) asertHalflife
  = Z.quot (drift * asertRadix) asertHalflife + asertRadix.
Proof.
  intros Hsign.
  change asertRadix with 65536. unfold asertHalflife in *.
  replace ((drift + 172800) * 65536) with (drift * 65536 + 65536 * 172800)
    by ring.
  destruct Hsign as [H|[H|H]].
  - apply Z.quot_add; [discriminate | nia].
  - apply Z.quot_add; [discriminate | nia].
  - apply Z.mod_divide in H; [|discriminate]. destruct H as [m Hm]. subst drift.
    replace (m * 675 * 65536 + 65536 * 172800) with ((m * 256 + 65536) * 172800)
      by ring.
    replace (m * 675 * 65536) with (m * 256 * 172800) by ring.
    now rewrite !Z.quot_mul by discriminate.
Qed.

Lemma shiftl_succ_halves a n : Z.shiftl a (n + 1) / 2 = Z.shiftl a n.
Proof.
  assert (Hk : exists k, 0 <= k /\ 0 <= n + k) by (exists (Z.max 0 (- n)); lia).
  destruct Hk as [k [Hk Hnk]].
  rewrite (shiftl_as_div a (n + 1) k), (shiftl_as_div a n (k + 1)) by lia.
  rewrite Z.div_div by (try apply Z.pow_pos_nonneg; lia).
  rewrite (Z.pow_add_r 2 k 1) by lia.
  change (2 ^ 1) with 2.
  replace (n + (k + 1)) with (n + 1 + k) by ring.
  reflexivity.
Qed.

Lemma shiftl_succ_doubles a n : 0 <= n -> Z.shiftl a (n + 1) = 2 * Z.shiftl a n.
Proof.
  intros Hn. rewrite !Z.shiftl_mul_pow2, Z.pow_add_r by lia. ring.
Qed.

End HalfLife.

(** C2, refuted as stated.  With anchor target 3 the value before the clamp
    is 1 at [evalTime = 600 - 172800] and 3 one half-life later: the final
    shifts round down, so the later value is not twice the earlier one.
    With anchor target [2^32] and [evalTime = 599] the chain is one second
    ahead of schedule; the division truncates toward zero on one side of
    zero only, the factor changes, and the later value is [2^33 - 2^16].
    None of these values is clamped. *)
Lemma asert_halflife_not_exactly_double :
  (asertUnclamped 1 0 3 1 (600 - asertHalflife) = 1
   /\ asertUnclamped 1 0 3 1 (600 - asertHalflife + asertHalflife) = 3
   /\ 3 <> 2 * 1
   /\ ASERTNextTarget 1 0 3 1 (600 - asertHalflife) (2 ^ 224) = Returns 1
   /\ ASERTNextTarget 1 0 3 1 (600 - asertHalflife + asertHalflife) (2 ^ 224)
      = Returns 3)
  /\ (asertUnclamped 1 0 (2 ^ 32) 1 599 = 2 ^ 32
      /\ asertUnclamped 1 0 (2 ^ 32) 1 (599 + asertHalflife) = 2 ^ 33 - 2 ^ 16
      /\ 2 ^ 33 - 2 ^ 16 <> 2 * 2 ^ 32
      /\ ASERTNextTarget 1 0 (2 ^ 32) 1 599 (2 ^ 224) = Returns (2 ^ 32)
      /\ ASERTNextTarget 1 0 (2 ^ 32) 1 (599 + asertHalflife) (2 ^ 224)
         = Returns (2 ^ 33 - 2 ^ 16)).
Proof. repeat split; try reflexivity; discriminate. Qed.

(** C2, amended.  Let [drift = timeDelta - 600*numBlocks].  If the [int64]
    product [drift * 2^16] does not wrap, neither now nor one half-life
    later, and the truncating division rounds the same way both times
    ([drift >= 0], or [drift + 172800 <= 0], or 675 divides [drift]), then
    adding [asertHalflife] to [evalTime] raises [numShifts] by one and keeps
    the factor.  The value before the clamp then is the floor of half the
    later one (the later one is [2u] or [2u + 1]); it doubles exactly when
    [numShifts >= 16].  Under the preconditions these are the returned
    targets whenever neither is clamped. *)
Theorem asert_halflife_doubling
    (anchorHeight anchorParentTime anchorTarget evalHeight evalTime
       maxTarget : Z) :
  let drift :=
    evalTime - anchorParentTime
    - asertIdealBlockTime * (evalHeight - anchorHeight + 1) in
  let e := asertExponent anchorHeight anchorParentTime evalHeight evalTime in
  let e' :=
    asertExponent anchorHeight anchorParentTime evalHeight
      (evalTime + asertHalflife) in
  let u :=
    asertUnclamped anchorHeight anchorParentTime anchorTarget evalHeight
      evalTime in
  let u' :=
    asertUnclamped anchorHeight anchorParentTime anchorTarget evalHeight
      (evalTime + asertHalflife) in
  0 < anchorHeight -> 0 < anchorTarget -> 0 < maxTarget ->
  isInt64 (drift * asertRadix) ->
  isInt64 ((drift + asertHalflife) * asertRadix) ->
  0 <= drift \/ drift + asertHalflife <= 0 \/ drift mod 675 = 0 ->
  asertNumShifts e' = asertNumShifts e + 1
  /\ asertFactor (uint64 (asertFrac e')) = asertFactor (uint64 (asertFrac e))
  /\ u' / 2 = u
  /\ (16 <= asertNumShifts e -> u' = 2 * u)
  /\ (0 < u -> u' <= maxTarget ->
      ASERTNextTarget anchorHeight anchorParentTime anchorTarget evalHeight
        evalTime maxTarget = Returns u
      /\ ASERTNextTarget anchorHeight anchorParentTime anchorTarget evalHeight
           (evalTime + asertHalflife) maxTarget = Returns u').
Proof.
  intros drift e e' u u' Hh Ht Hm Hr Hr' Hsign.
  assert (He : e' = e + 2 ^ 16).
  { subst e e'.
    rewrite (asertExponent_exact _ _ _ evalTime Hr).
    rewrite asertExponent_exact.
    - fold drift.
      replace (evalTime + asertHalflife - anchorParentTime
               - asertIdealBlockTime * (evalHeight - anchorHeight + 1))
        with (drift + asertHalflife) by (subst drift; ring).
      now apply exponent_one_halflife_later.
    - replace (evalTime + asertHalflife - anchorParentTime
               - asertIdealBlockTime * (evalHeight - anchorHeight + 1))
        with (drift + asertHalflife) by (subst drift; ring).
      exact Hr'. }
  assert (Hq : e' / 2 ^ 16 = e / 2 ^ 16 + 1).
  { rewrite He. replace (e + 2 ^ 16) with (e + 1 * 2 ^ 16) by lia.
    now rewrite Z.div_add by lia. }
  assert (Hmod : e' mod 2 ^ 16 = e mod 2 ^ 16).
  { rewrite He. replace (e + 2 ^ 16) with (e + 1 * 2 ^ 16) by lia.
    now rewrite Z.mod_add by lia. }
  assert (Hu : u = Z.shiftl (anchorTarget * asertFactor (e mod 2 ^ 16))
                     (e / 2 ^ 16 - 16))
    by apply asertUnclamped_shiftl.
  assert (Hu' : u' = Z.shiftl (anchorTarget * asertFactor (e mod 2 ^ 16))
                       (e / 2 ^ 16 - 16 + 1)).
  { subst u'. rewrite asertUnclamped_shiftl. fold e'. rewrite Hq, Hmod.
    f_equal. lia. }
  split; [now rewrite !asertNumShifts_div|].
  split.
  { rewrite !asertFrac_mod by apply asertExponent_isInt64.
    fold e e'. now rewrite Hmod. }
  split; [rewrite Hu, Hu'; apply shiftl_succ_halves|].
  split.
  { rewrite asertNumShifts_div. intros Hn.
    rewrite Hu, Hu'. apply shiftl_succ_doubles. lia. }
  intros Hpos Hmax.
  assert (Hhalf : u' / 2 = u) by (rewrite Hu, Hu'; apply shiftl_succ_halves).
  assert (Hle : u <= u').
  { pose proof (Z.div_mod u' 2 ltac:(lia)).
    pose proof (Z.mod_pos_bound u' 2 ltac:(lia)). lia. }
  rewrite !ASERTNextTarget_returns by assumption.
  fold u u'. unfold asertClamp.
  destruct (Z.leb_spec u 0); [lia|].
  destruct (Z.leb_spec u' 0); [lia|].
  destruct (Z.gtb_spec u maxTarget); [lia|].
  destruct (Z.gtb_spec u' maxTarget); [lia|].
  split; reflexivity.
Qed.

Lemma asert_halflife_doubling_witness :
  asertUnclamped 1 0 (2 ^ 32) 1 (2765400 + asertHalflife) / 2
  = asertUnclamped 1 0 (2 ^ 32) 1 2765400
  /\ asertUnclamped 1 0 (2 ^ 32) 1 (2765400 + asertHalflife)
     = 2 * asertUnclamped 1 0 (2 ^ 32) 1 2765400.
Proof.
  pose proof (asert_halflife_doubling 1 0 (2 ^ 32) 1 2765400 (2 ^ 224)) as H.
  cbv zeta in H.
  destruct H as (_ & _ & Hhalf & Hdouble & _); try lia.
  - unfold isInt64. vm_compute. split; [discriminate | reflexivity].
  - unfold isInt64. vm_compute. split; [discriminate | reflexivity].
  - left. vm_compute. discriminate.
  - split; [exact Hhalf | apply Hdouble; vm_compute; discriminate].
Defined.

(** ** The compact codec round trip (C1) *)

Section CompactBits.

Lemma land_low23 x : 0 <= x < 2 ^ 23 -> Z.land x 0x007fffff = x.
Proof.
  intros H. change 0x007fffff with (Z.ones 23).
  rewrite Z.land_ones by lia. now apply Z.mod_small.
Qed.

Lemma testbit23 x : 0 <= x < 2 ^ 24 -> Z.testbit x 23 = (2 ^ 23 <=? x).
Proof.
  intros H. rewrite Z.testbit_eqb by lia.
  destruct (Z.leb_spec (2 ^ 23) x) as [Hge|Hlt].
  - replace (x / 2 ^ 23) with 1; [reflexivity|].
    apply (Z.div_unique x (2 ^ 23) 1 (x - 2 ^ 23)); lia.
  - now rewrite Z.div_small by lia.
Qed.

Lemma land_bit23 x :
  0 <= x < 2 ^ 24 ->
  Z.land x 0x00800000 = if 2 ^ 23 <=? x then 2 ^ 23 else 0.
Proof.
  intros H. apply Z.bits_inj'. intros n Hn.
  rewrite Z.land_spec. change 0x00800000 with (2 ^ 23).
  rewrite Z.pow2_bits_eqb by lia.
  destruct (Z.eqb_spec 23 n) as [<-|Hne].
  - rewrite Bool.andb_true_r, (testbit23 x H).
    destruct (2 ^ 23 <=? x);
      [now rewrite Z.pow2_bits_eqb by lia | now rewrite Z.bits_0].
  - rewrite Bool.andb_false_r.
    destruct (2 ^ 23 <=? x); [|now rewrite Z.bits_0].
    rewrite Z.pow2_bits_eqb by lia. symmetry. now apply Z.eqb_neq.
Qed.

(** A compact value is its mantissa next to its size. *)
Lemma compact_split b :
  Z.lor (compactMantissa b) (Z.shiftl (compactSize b) 24) = b.
Proof.
  unfold compactMantissa, compactSize.
  change 0x00ffffff with (Z.ones 24).
  rewrite <- Z.ldiff_ones_r by lia.
  rewrite Z.lor_comm. apply Z.lor_ldiff_and.
Qed.

Lemma compact_sum b :
  b = compactSize b * 2 ^ 24 + compactMantissa b
  /\ 0 <= compactMantissa b < 2 ^ 24.
Proof.
  unfold compactMantissa, compactSize.
  change 0x00ffffff with (Z.ones 24).
  rewrite Z.land_ones, Z.shiftr_div_pow2 by lia.
  pose proof (Z.div_mod b (2 ^ 24) ltac:(lia)).
  pose proof (Z.mod_pos_bound b (2 ^ 24) ltac:(lia)). lia.
Qed.

Lemma mantissa_low23 b :
  compactMantissa b < 2 ^ 23 -> Z.land b 0x007fffff = compactMantissa b.
Proof.
  intros H. destruct (compact_sum b) as [Hb Hm].
  change 0x007fffff with (Z.ones 23). rewrite Z.land_ones by lia.
  symmetry. apply (Z.mod_unique b (2 ^ 23) (2 * compactSize b)); lia.
Qed.

(** [bitsToTargetBCH] in terms of size and mantissa. *)
Lemma bitsToTargetBCH_eq b :
  isUint32 b -> compactMantissa b < 2 ^ 23 ->
  bitsToTargetBCH b
  = if compactSize b <=? 3
    then compactMantissa b / 2 ^ (8 * (3 - compactSize b))
    else compactMantissa b * 2 ^ (8 * (compactSize b - 3)).
Proof.
  intros Hb Hm. unfold bitsToTargetBCH. rewrite (mantissa_low23 b Hm).
  fold (compactSize b).
  destruct (compact_sum b) as [Hsum Hmb]. unfold isUint32 in Hb.
  assert (0 <= compactSize b < 256) by lia.
  destruct (Z.leb_spec (compactSize b) 3).
  - rewrite (uint32_small (3 - _)) by lia.
    rewrite uint32_small, uint64_small by lia.
    apply Z.shiftr_div_pow2. lia.
  - rewrite (uint32_small (_ - 3)) by lia.
    rewrite uint32_small, uint64_small by lia.
    apply Z.shiftl_mul_pow2. lia.
Qed.

(** The number of bytes of a positive target. *)
Lemma byte_length_unique t n :
  1 <= n -> 2 ^ (8 * (n - 1)) <= t < 2 ^ (8 * n) ->
  Z.quot (BitLen t + 7) 8 = n.
Proof.
  intros Hn [Hlo Hhi].
  assert (Hpos : 0 < t).
  { pose proof (Z.pow_pos_nonneg 2 (8 * (n - 1))). lia. }
  unfold BitLen. destruct (Z.eqb_spec t 0); [lia|].
  rewrite Z.abs_eq by lia.
  apply Z.log2_le_pow2 in Hlo; [|assumption].
  apply Z.log2_lt_pow2 in Hhi; [|assumption].
  rewrite Z.quot_div_nonneg by lia.
  symmetry. apply (Z.div_unique _ 8 n (Z.log2 t + 1 + 7 - 8 * n)); lia.
Qed.

Lemma maxTarget_value : bitsToTargetBCH asertMaxBits = 0xffff * 2 ^ 208.
Proof. reflexivity. Qed.

(** [targetToBitsBCH] on a target within the limit, given its byte length
    [n] and the three bytes [k] taken from its top. *)
Lemma targetToBitsBCH_eq t n k :
  0 < t <= 0xffff * 2 ^ 208 ->
  Z.quot (BitLen t + 7) 8 = n -> 1 <= n <= 29 ->
  (if n <=? 3 then Z.shiftl t (8 * (3 - n)) else Z.shiftr t (8 * (n - 3))) = k ->
  0 <= k < 2 ^ 24 ->
  targetToBitsBCH t
  = Returns (if 2 ^ 23 <=? k
             then Z.lor (Z.shiftr k 8) (Z.shiftl (n + 1) 24)
             else Z.lor k (Z.shiftl n 24)).
Proof.
  intros Ht Hn Hnb Hk Hkb. unfold targetToBitsBCH.
  destruct (Z.leb_spec t 0); [lia|].
  rewrite maxTarget_value.
  destruct (Z.gtb_spec t (0xffff * 2 ^ 208)); [lia|].
  rewrite Hn. rewrite (uint32_small n) by lia.
  assert (Hc : (if n <=? 3
                then uint32 (bigUint64
                       (Z.shiftl t (uint64 (uint32 (8 * uint32 (3 - n))))))
                else uint32 (bigUint64
                       (Z.shiftr t (uint64 (uint32 (8 * uint32 (n - 3)))))))
               = k).
  { destruct (Z.leb_spec n 3).
    - rewrite (uint32_small (3 - n)) by lia.
      rewrite (uint32_small (8 * _)), uint64_small by lia.
      rewrite Hk, bigUint64_small by (unfold isUint64; lia).
      apply uint32_small. lia.
    - rewrite (uint32_small (n - 3)) by lia.
      rewrite (uint32_small (8 * _)), uint64_small by lia.
      rewrite Hk, bigUint64_small by (unfold isUint64; lia).
      apply uint32_small. lia. }
  rewrite Hc, (land_bit23 k Hkb).
  assert (Hs : forall m, 1 <= m <= 30 -> uint32 (Z.shiftl m 24) = Z.shiftl m 24).
  { intros m Hm. apply uint32_small. rewrite Z.shiftl_mul_pow2; lia. }
  destruct (Z.leb_spec (2 ^ 23) k) as [Hge|Hlt].
  - change (2 ^ 23 =? 0) with false. cbn [negb].
    rewrite (uint32_small (n + 1)) by lia.
    rewrite Hs by lia.
    rewrite land_low23; [reflexivity|].
    rewrite Z.shiftr_div_pow2 by lia. split.
    + apply Z.div_pos; lia.
    + apply Z.div_lt_upper_bound; lia.
  - change (0 =? 0) with true. cbn [negb].
    rewrite Hs by lia. now rewrite land_low23 by lia.
Qed.

End CompactBits.

Section RoundTrip.

Lemma pow2_pos n : 0 <= n -> 0 < 2 ^ n.
Proof. intros H. apply Z.pow_pos_nonneg; lia. Qed.

(** Mantissa on three bytes: the target has [size] bytes. *)
Lemma encode_wide_mantissa size mant :
  3 <= size <= 28 -> 0x010000 <= mant <= 0x7fffff ->
  targetToBitsBCH (mant * 2 ^ (8 * (size - 3)))
  = Returns (Z.lor mant (Z.shiftl size 24)).
Proof.
  intros Hs Hm.
  set (c := 8 * (size - 3)).
  assert (Hc : 0 <= c <= 200) by (subst c; lia).
  pose proof (pow2_pos c ltac:(lia)) as Hp.
  assert (Hp200 : 2 ^ c <= 2 ^ 200) by (apply Z.pow_le_mono_r; lia).
  rewrite (targetToBitsBCH_eq _ size mant).
  - destruct (Z.leb_spec (2 ^ 23) mant); [lia | reflexivity].
  - split; [nia|].
    apply Z.le_trans with (2 ^ 23 * 2 ^ 200); [|lia].
    apply Z.mul_le_mono_nonneg; lia.
  - apply byte_length_unique; [lia|].
    replace (8 * (size - 1)) with (16 + c) by (subst c; lia).
    replace (8 * size) with (24 + c) by (subst c; lia).
    rewrite !Z.pow_add_r by lia. split.
    + apply Z.mul_le_mono_nonneg_r; lia.
    + apply Z.mul_lt_mono_pos_r; lia.
  - lia.
  - destruct (Z.leb_spec size 3).
    + assert (E : size = 3) by lia. subst c. rewrite E.
      change (8 * (3 - 3)) with 0. change (2 ^ 0) with 1.
      rewrite Z.mul_1_r. apply Z.shiftl_0_r.
    + fold c. rewrite Z.shiftr_div_pow2 by lia. apply Z.div_mul. lia.
  - lia.
Qed.

(** Mantissa on two bytes with its top bit set: the target has
    [size - 1] bytes, and the encoder moves the mantissa down a byte. *)
Lemma encode_narrow_mantissa size mant :
  3 <= size <= 29 -> 0x008000 <= mant <= 0x00ffff ->
  targetToBitsBCH (mant * 2 ^ (8 * (size - 3)))
  = Returns (Z.lor mant (Z.shiftl size 24)).
Proof.
  intros Hs Hm.
  set (c := 8 * (size - 3)).
  assert (Hc : 0 <= c <= 208) by (subst c; lia).
  pose proof (pow2_pos c ltac:(lia)) as Hp.
  assert (Hp208 : 2 ^ c <= 2 ^ 208) by (apply Z.pow_le_mono_r; lia).
  rewrite (targetToBitsBCH_eq _ (size - 1) (mant * 2 ^ 8)).
  - destruct (Z.leb_spec (2 ^ 23) (mant * 2 ^ 8)); [|lia].
    rewrite Z.shiftr_div_pow2, Z.div_mul by lia.
    now replace (size - 1 + 1) with size by lia.
  - split; [nia|]. apply Z.mul_le_mono_nonneg; lia.
  - apply byte_length_unique; [lia|].
    replace (8 * (size - 1 - 1)) with (8 + c) by (subst c; lia).
    replace (8 * (size - 1)) with (16 + c) by (subst c; lia).
    rewrite !Z.pow_add_r by lia. split.
    + apply Z.mul_le_mono_nonneg_r; lia.
    + apply Z.mul_lt_mono_pos_r; lia.
  - lia.
  - destruct (Z.leb_spec (size - 1) 3).
    + rewrite Z.shiftl_mul_pow2 by lia.
      rewrite <- Z.mul_assoc, <- Z.pow_add_r by lia.
      do 2 f_equal. subst c. lia.
    + rewrite Z.shiftr_div_pow2 by lia.
      replace c with (8 + 8 * (size - 1 - 3)) by (subst c; lia).
      rewrite Z.pow_add_r, Z.mul_assoc by lia.
      apply Z.div_mul. apply Z.pow_nonzero; lia.
  - lia.
Qed.

(** Sizes 2 and 1: decoding drops one or two zero bytes of the mantissa. *)
Lemma encode_size2 mant :
  0x008000 <= mant <= 0x7fffff -> mant mod 2 ^ 8 = 0 ->
  targetToBitsBCH (mant / 2 ^ 8) = Returns (Z.lor mant (Z.shiftl 2 24)).
Proof.
  intros Hm Hz.
  pose proof (Z.div_mod mant (2 ^ 8) ltac:(lia)) as Hd.
  set (m := mant / 2 ^ 8) in *.
  assert (Hmant : mant = m * 2 ^ 8) by lia.
  destruct (Z_lt_ge_dec m (2 ^ 8)).
  - rewrite (targetToBitsBCH_eq _ 1 (m * 2 ^ 16)); try lia.
    + destruct (Z.leb_spec (2 ^ 23) (m * 2 ^ 16)); [|lia].
      rewrite Z.shiftr_div_pow2 by lia.
      replace (m * 2 ^ 16) with (mant * 2 ^ 8) by lia.
      now rewrite Z.div_mul by lia.
    + apply byte_length_unique; lia.
    + change (1 <=? 3) with true. cbv iota. change (8 * (3 - 1)) with 16.
      apply Z.shiftl_mul_pow2. lia.
  - rewrite (targetToBitsBCH_eq _ 2 mant); try lia.
    + destruct (Z.leb_spec (2 ^ 23) mant); [lia | reflexivity].
    + apply byte_length_unique; lia.
    + change (2 <=? 3) with true. cbv iota. change (8 * (3 - 2)) with 8.
      rewrite Z.shiftl_mul_pow2 by lia. lia.
Qed.

Lemma encode_size1 mant :
  0x008000 <= mant <= 0x7fffff -> mant mod 2 ^ 16 = 0 ->
  targetToBitsBCH (mant / 2 ^ 16) = Returns (Z.lor mant (Z.shiftl 1 24)).
Proof.
  intros Hm Hz.
  pose proof (Z.div_mod mant (2 ^ 16) ltac:(lia)) as Hd.
  set (m := mant / 2 ^ 16) in *.
  assert (Hmant : mant = m * 2 ^ 16) by lia.
  rewrite (targetToBitsBCH_eq _ 1 mant); try lia.
  - destruct (Z.leb_spec (2 ^ 23) mant); [lia | reflexivity].
  - apply byte_length_unique; lia.
  - change (1 <=? 3) with true. cbv iota. change (8 * (3 - 1)) with 16.
    rewrite Z.shiftl_mul_pow2 by lia. lia.
Qed.

End RoundTrip.

(** ** What the encoder can return *)

Section EncoderImage.

Lemma targetToBitsBCH_clamps t :
  0 < t ->
  targetToBitsBCH t = targetToBitsBCH (Z.min t (0xffff * 2 ^ 208)).
Proof.
  intros Ht. unfold targetToBitsBCH.
  destruct (Z.leb_spec t 0); [lia|].
  destruct (Z.leb_spec (Z.min t (0xffff * 2 ^ 208)) 0); [lia|].
  rewrite maxTarget_value.
  destruct (Z.gtb_spec t (0xffff * 2 ^ 208)) as [Hgt|Hle].
  - rewrite Z.min_r by lia.
    destruct (Z.gtb_spec (0xffff * 2 ^ 208) (0xffff * 2 ^ 208)); [lia|].
    reflexivity.
  - rewrite Z.min_l by lia.
    destruct (Z.gtb_spec t (0xffff * 2 ^ 208)); [lia | reflexivity].
Qed.

(** Every positive target within the limit has a byte length [n] in
    [[1, 28]]. *)
Lemma byte_length_exists t :
  0 < t <= 0xffff * 2 ^ 208 ->
  exists n,
    1 <= n <= 28
    /\ 2 ^ (8 * (n - 1)) <= t < 2 ^ (8 * n)
    /\ Z.quot (BitLen t + 7) 8 = n.
Proof.
  intros Ht.
  pose proof (Z.log2_spec t ltac:(lia)) as [Hlo Hhi].
  pose proof (Z.log2_nonneg t) as H0.
  assert (Hl : Z.log2 t < 224).
  { apply Z.log2_lt_pow2; lia. }
  set (n := (Z.log2 t + 8) / 8).
  assert (Hn : 8 * (n - 1) <= Z.log2 t < 8 * n).
  { subst n. pose proof (Z.div_mod (Z.log2 t + 8) 8 ltac:(lia)).
    pose proof (Z.mod_pos_bound (Z.log2 t + 8) 8 ltac:(lia)). lia. }
  assert (Hb : 2 ^ (8 * (n - 1)) <= t < 2 ^ (8 * n)).
  { split.
    - apply Z.le_trans with (2 ^ Z.log2 t); [|assumption].
      apply Z.pow_le_mono_r; lia.
    - apply Z.lt_le_trans with (2 ^ Z.succ (Z.log2 t)); [assumption|].
      apply Z.pow_le_mono_r; lia. }
  exists n. split; [lia|]. split; [exact Hb|].
  apply byte_length_unique; [lia | exact Hb].
Qed.

Lemma disjoint_lor m s :
  0 <= m < 2 ^ 24 -> 0 <= s ->
  Z.lor m (Z.shiftl s 24) = s * 2 ^ 24 + m.
Proof.
  intros Hm Hs.
  assert (Hland : Z.land m (Z.shiftl s 24) = 0).
  { apply Z.bits_inj'. intros i Hi.
    rewrite Z.land_spec, Z.bits_0.
    destruct (Z_lt_ge_dec i 24).
    - rewrite Z.shiftl_spec_low by lia. apply Bool.andb_false_r.
    - rewrite <- (Z.mod_small m (2 ^ 24)) by lia.
      rewrite Z.mod_pow2_bits_high by lia. reflexivity. }
  pose proof (Z.add_lor_land m (Z.shiftl s 24)) as H.
  rewrite Hland, Z.shiftl_mul_pow2 in H by lia.
  rewrite Z.shiftl_mul_pow2 by lia. lia.
Qed.

Lemma compact_of_parts m s :
  0 <= m < 2 ^ 24 -> 0 <= s ->
  compactSize (Z.lor m (Z.shiftl s 24)) = s
  /\ compactMantissa (Z.lor m (Z.shiftl s 24)) = m.
Proof.
  intros Hm Hs. rewrite (disjoint_lor m s Hm Hs).
  unfold compactSize, compactMantissa.
  change 0x00ffffff with (Z.ones 24).
  rewrite Z.shiftr_div_pow2, Z.land_ones by lia. split.
  - symmetry. apply (Z.div_unique _ (2 ^ 24) s m); lia.
  - symmetry. apply (Z.mod_unique _ (2 ^ 24) s m); lia.
Qed.

(** Whatever [targetToBitsBCH] returns is a 32-bit value in the encoder's
    normal form. *)
Lemma targetToBitsBCH_canonical t b :
  targetToBitsBCH t = Returns b -> isUint32 b /\ canonicalCompact b.
Proof.
  intros Hret.
  assert (Ht : 0 < t).
  { destruct (Z_le_gt_dec t 0) as [Hle|Hgt]; [|lia].
    rewrite targetToBitsBCH_panics_nonpos in Hret by assumption.
    discriminate. }
  rewrite targetToBitsBCH_clamps in Hret by assumption.
  set (t' := Z.min t (0xffff * 2 ^ 208)) in *.
  assert (Ht' : 0 < t' <= 0xffff * 2 ^ 208) by (subst t'; lia).
  clearbody t'. clear t Ht.
  destruct (byte_length_exists t' Ht') as (n & Hn & Hb & Hlen).
  set (k := if n <=? 3 then Z.shiftl t' (8 * (3 - n))
            else Z.shiftr t' (8 * (n - 3))).
  assert (Hk : 2 ^ 16 <= k < 2 ^ 24
               /\ (n <= 3 -> k = t' * 2 ^ (8 * (3 - n)))
               /\ (n = 28 -> k <= 0xffff * 2 ^ 8)).
  { subst k. destruct (Z.leb_spec n 3).
    - rewrite Z.shiftl_mul_pow2 by lia.
      pose proof (pow2_pos (8 * (3 - n)) ltac:(lia)) as Hp.
      assert (Elo : 2 ^ (8 * (n - 1)) * 2 ^ (8 * (3 - n)) = 2 ^ 16).
      { rewrite <- Z.pow_add_r by lia. f_equal. lia. }
      assert (Ehi : 2 ^ (8 * n) * 2 ^ (8 * (3 - n)) = 2 ^ 24).
      { rewrite <- Z.pow_add_r by lia. f_equal. lia. }
      split; [split|split].
      + rewrite <- Elo. apply Z.mul_le_mono_nonneg_r; lia.
      + rewrite <- Ehi. apply Z.mul_lt_mono_pos_r; lia.
      + reflexivity.
      + lia.
    - rewrite Z.shiftr_div_pow2 by lia.
      pose proof (pow2_pos (8 * (n - 3)) ltac:(lia)) as Hp.
      replace (8 * (n - 1)) with (16 + 8 * (n - 3)) in Hb by lia.
      replace (8 * n) with (24 + 8 * (n - 3)) in Hb by lia.
      rewrite !Z.pow_add_r in Hb by lia.
      split; [split|split].
      + apply Z.div_le_lower_bound; lia.
      + apply Z.div_lt_upper_bound; lia.
      + lia.
      + intros E. apply Z.div_le_upper_bound; [lia|].
        rewrite E. change (8 * (28 - 3)) with 200. lia. }
  destruct Hk as (Hkb & Hklow & Hkmax).
  rewrite (targetToBitsBCH_eq t' n k) in Hret by (auto; lia).
  assert (Eb : (if 2 ^ 23 <=? k
                then Z.lor (Z.shiftr k 8) (Z.shiftl (n + 1) 24)
                else Z.lor k (Z.shiftl n 24)) = b) by congruence.
  clear Hret Hlen. clearbody k. subst b.
  destruct (Z.leb_spec (2 ^ 23) k) as [Hge|Hlt].
  - assert (Hm : 2 ^ 15 <= Z.shiftr k 8 < 2 ^ 16).
    { rewrite Z.shiftr_div_pow2 by lia. split.
      - apply Z.div_le_lower_bound; lia.
      - apply Z.div_lt_upper_bound; lia. }
    destruct (compact_of_parts (Z.shiftr k 8) (n + 1)) as [Es Em]; try lia.
    split.
    + unfold isUint32. rewrite disjoint_lor by lia. lia.
    + unfold canonicalCompact. rewrite Es, Em.
      split; [lia|]. split; [lia|]. split.
      * intros Hsmall. assert (n = 1) by lia. subst n.
        rewrite Hklow by lia.
        change (8 * (3 - (1 + 1))) with 8. change (8 * (3 - 1)) with 16.
        rewrite Z.shiftr_div_pow2 by lia.
        replace (t' * 2 ^ 16) with (t' * 2 ^ 8 * 2 ^ 8) by lia.
        rewrite Z.div_mul by lia. apply Z.mod_mul. lia.
      * rewrite disjoint_lor by lia. unfold asertMaxBits.
        destruct (Z.eq_dec n 28) as [E|Hne]; [|lia].
        specialize (Hkmax E).
        assert (Z.shiftr k 8 <= 0xffff); [|lia].
        rewrite Z.shiftr_div_pow2 by lia.
        apply Z.div_le_upper_bound; lia.
  - destruct (compact_of_parts k n) as [Es Em]; try lia.
    split.
    + unfold isUint32. rewrite disjoint_lor by lia. lia.
    + unfold canonicalCompact. rewrite Es, Em.
      split; [lia|]. split; [lia|]. split.
      * intros Hsmall. rewrite Hklow by lia. apply Z.mod_mul.
        apply Z.pow_nonzero; lia.
      * rewrite disjoint_lor by lia. unfold asertMaxBits. lia.
Qed.

End EncoderImage.

(** C1, refuted as stated.  Four compact values with the high mantissa bit
    clear and a positive size that do not survive the round trip: one
    decodes to 0, on which the encoder panics; one has spare leading zero
    bytes in its mantissa; one loses a mantissa byte when decoded; one
    decodes above the limit and comes back as [asertMaxBits]. *)
Lemma compact_roundtrip_fails_in_spec_normal_form :
  (specNormalForm 0x01000001
   /\ targetToBitsBCH (bitsToTargetBCH 0x01000001)
      = Panics "invalid target sign")
  /\ (specNormalForm 0x04000001
      /\ targetToBitsBCH (bitsToTargetBCH 0x04000001) = Returns 0x02010000)
  /\ (specNormalForm 0x02008001
      /\ targetToBitsBCH (bitsToTargetBCH 0x02008001) = Returns 0x02008000)
  /\ (specNormalForm 0x1e00ffff
      /\ targetToBitsBCH (bitsToTargetBCH 0x1e00ffff) = Returns 0x1d00ffff).
Proof.
  unfold specNormalForm, isUint32.
  repeat split; try reflexivity; try discriminate.
Qed.

(** C1, amended.  For every compact 32-bit value [b] in the encoder's
    normal form (size > 0; mantissa in [[0x008000, 0x7fffff]]; for a size
    below 3, the mantissa bytes that decoding drops are zero;
    [b <= 0x1d00ffff]), decoding [b] with [bitsToTargetBCH] and re-encoding
    with [targetToBitsBCH] returns exactly [b]. *)
Theorem compact_roundtrip (b : Z) :
  isUint32 b -> canonicalCompact b ->
  targetToBitsBCH (bitsToTargetBCH b) = Returns b.
Proof.
  intros Hb (Hsize & Hmant & Hlow & Hmax).
  destruct (compact_sum b) as [Hsum Hmb].
  rewrite bitsToTargetBCH_eq by (auto; lia).
  enough (Hgoal :
            (if compactSize b <=? 3
             then targetToBitsBCH
                    (compactMantissa b / 2 ^ (8 * (3 - compactSize b)))
             else targetToBitsBCH
                    (compactMantissa b * 2 ^ (8 * (compactSize b - 3))))
            = Returns (Z.lor (compactMantissa b)
                         (Z.shiftl (compactSize b) 24))).
  { rewrite compact_split in Hgoal. rewrite <- Hgoal.
    now destruct (compactSize b <=? 3). }
  set (size := compactSize b) in *. set (mant := compactMantissa b) in *.
  unfold asertMaxBits in Hmax.
  assert (Hs : size <= 29) by lia.
  destruct (Z.leb_spec size 3) as [Hle|Hgt].
  - assert (Hcases : size = 1 \/ size = 2 \/ size = 3) by lia.
    destruct Hcases as [E|[E|E]]; rewrite E in *.
    + apply encode_size1; [lia | apply Hlow; lia].
    + apply encode_size2; [lia | apply Hlow; lia].
    + change (2 ^ (8 * (3 - 3))) with 1. rewrite Z.div_1_r.
      replace mant with (mant * 2 ^ (8 * (3 - 3))) at 1
        by (change (2 ^ (8 * (3 - 3))) with 1; lia).
      destruct (Z_lt_ge_dec mant 0x010000).
      * apply encode_narrow_mantissa; lia.
      * apply encode_wide_mantissa; lia.
  - destruct (Z_lt_ge_dec mant 0x010000).
    + apply encode_narrow_mantissa; lia.
    + apply encode_wide_mantissa; lia.
Qed.

Lemma compact_roundtrip_witness :
  targetToBitsBCH (bitsToTargetBCH 0x1d00ffff) = Returns 0x1d00ffff.
Proof.
  apply (compact_roundtrip 0x1d00ffff).
  - unfold isUint32. lia.
  - unfold canonicalCompact. repeat split; vm_compute; discriminate.
Defined.

(** Conversely, a value that survives the round trip is in that normal
    form: the amended premise cannot be weakened. *)
Lemma compact_roundtrip_only_canonical (b : Z) :
  targetToBitsBCH (bitsToTargetBCH b) = Returns b -> canonicalCompact b.
Proof. intros H. now apply targetToBitsBCH_canonical in H. Qed.

(** ** Target and difficulty *)

Section Duality.

Lemma two256m1_pos : 0 < two256m1.
Proof. reflexivity. Qed.

Lemma difficultyToTarget_quot d :
  1 <= d <= two256m1 -> difficultyToTarget d = two256m1 / d /\ 1 <= two256m1 / d.
Proof.
  intros Hd. unfold difficultyToTarget.
  destruct (Z.leb_spec d 0); [lia|].
  assert (1 <= two256m1 / d) by (apply Z.div_le_lower_bound; lia).
  cbv zeta. destruct (Z.leb_spec (two256m1 / d) 0); [lia | split; [reflexivity | assumption]].
Qed.

Lemma targetToDifficulty_quot t :
  1 <= t <= two256m1 -> targetToDifficulty t = two256m1 / t /\ 1 <= two256m1 / t.
Proof.
  intros Ht. unfold targetToDifficulty.
  destruct (Z.leb_spec t 0); [lia|].
  assert (1 <= two256m1 / t) by (apply Z.div_le_lower_bound; lia).
  cbv zeta. destruct (Z.leb_spec (two256m1 / t) 0); [lia | split; [reflexivity | assumption]].
Qed.

Lemma difficultyToTarget_floor_one d :
  d <= 0 \/ two256m1 < d -> difficultyToTarget d = 1.
Proof.
  intros Hd. unfold difficultyToTarget.
  destruct (Z.leb_spec d 0); [reflexivity|].
  rewrite Z.div_small by (pose proof two256m1_pos; lia). reflexivity.
Qed.

Lemma difficultyToTarget_range d : 1 <= difficultyToTarget d <= two256m1.
Proof.
  pose proof two256m1_pos as Hm.
  destruct (Z_le_gt_dec d 0) as [H0|H0];
    [rewrite difficultyToTarget_floor_one; lia|].
  destruct (Z_le_gt_dec d two256m1) as [H1|H1];
    [|rewrite difficultyToTarget_floor_one; lia].
  destruct (difficultyToTarget_quot d ltac:(lia)) as [-> Hq].
  split; [assumption|]. apply Z.div_le_upper_bound; nia.
Qed.

Lemma targetToDifficulty_same x : targetToDifficulty x = difficultyToTarget x.
Proof. reflexivity. Qed.

End Duality.

(** X1.  [difficultyToTarget] and [targetToDifficulty] never return a value
    [<= 0], whatever they are given: the result is always in
    [[1, 2^256 - 1]]. *)
Theorem duality_results_in_range (x : Z) :
  1 <= difficultyToTarget x <= two256m1
  /\ 1 <= targetToDifficulty x <= two256m1.
Proof.
  split; [apply difficultyToTarget_range|].
  exact (difficultyToTarget_range x).
Qed.

(** X2.  A higher positive difficulty never gives a higher target, and a
    higher positive target never gives a higher difficulty. *)
Theorem duality_antitone (x y : Z) :
  0 < x <= y ->
  difficultyToTarget y <= difficultyToTarget x
  /\ targetToDifficulty y <= targetToDifficulty x.
Proof.
  intros Hxy.
  assert (H : difficultyToTarget y <= difficultyToTarget x);
    [|split; exact H].
  pose proof two256m1_pos as Hm.
  destruct (Z_le_gt_dec y two256m1) as [Hy|Hy].
  - destruct (difficultyToTarget_quot x ltac:(lia)) as [-> _].
    destruct (difficultyToTarget_quot y ltac:(lia)) as [-> _].
    apply Z.div_le_compat_l; lia.
  - rewrite (difficultyToTarget_floor_one y) by lia.
    apply difficultyToTarget_range.
Qed.

Lemma duality_antitone_witness :
  difficultyToTarget 1000 <= difficultyToTarget 3
  /\ targetToDifficulty 1000 <= targetToDifficulty 3.
Proof. apply (duality_antitone 3 1000). lia. Defined.

(** X3.  Difficulty -> target -> difficulty is exact for every difficulty
    [d >= 1] with [d * (d + 1) <= 2^256 - 1], in particular for every
    difficulty below [2^127]; difficulty 1 maps to the target [2^256 - 1]
    and back. *)
Theorem difficulty_roundtrip_exact (d : Z) :
  1 <= d -> d * (d + 1) <= two256m1 ->
  targetToDifficulty (difficultyToTarget d) = d.
Proof.
  intros Hd Hsq.
  pose proof two256m1_pos as Hm.
  assert (Hdm : d <= two256m1) by nia.
  destruct (difficultyToTarget_quot d ltac:(lia)) as [-> Hq].
  set (t := two256m1 / d) in *.
  pose proof (Z.div_mod two256m1 d ltac:(lia)) as Hdiv. fold t in Hdiv.
  pose proof (Z.mod_pos_bound two256m1 d ltac:(lia)) as Hmod.
  assert (Ht : d + 1 <= t).
  { subst t. apply Z.div_le_lower_bound; lia. }
  assert (Htm : t <= two256m1) by nia.
  destruct (targetToDifficulty_quot t ltac:(lia)) as [-> _].
  symmetry. apply (Z.div_unique two256m1 t d (two256m1 mod d)); lia.
Qed.

Lemma difficulty_roundtrip_exact_witness :
  targetToDifficulty (difficultyToTarget (2 ^ 100)) = 2 ^ 100.
Proof.
  apply (difficulty_roundtrip_exact (2 ^ 100)); vm_compute; discriminate.
Defined.

(** X4.  For a difficulty in [[1, 2^256 - 1]] the round trip never lowers
    it. *)
Theorem difficulty_roundtrip_not_below (d : Z) :
  1 <= d <= two256m1 ->
  d <= targetToDifficulty (difficultyToTarget d).
Proof.
  intros Hd.
  destruct (difficultyToTarget_quot d Hd) as [-> Hq].
  assert (Hle : two256m1 / d <= two256m1).
  { apply Z.div_le_upper_bound; nia. }
  destruct (targetToDifficulty_quot (two256m1 / d) ltac:(lia)) as [-> _].
  apply Z.div_le_lower_bound; [lia|].
  rewrite Z.mul_comm. apply Z.mul_div_le. lia.
Qed.

Lemma difficulty_roundtrip_not_below_witness :
  2 ^ 255 <= targetToDifficulty (difficultyToTarget (2 ^ 255))
  /\ targetToDifficulty (difficultyToTarget (2 ^ 255)) <> 2 ^ 255.
Proof.
  split.
  - apply (difficulty_roundtrip_not_below (2 ^ 255)).
    vm_compute. split; discriminate.
  - vm_compute. discriminate.
Defined.

(** X5.  Converting once more changes nothing: the target of the
    round-tripped difficulty is the target of the difficulty, for every
    input. *)
Theorem duality_stabilises (d : Z) :
  difficultyToTarget (targetToDifficulty (difficultyToTarget d))
  = difficultyToTarget d.
Proof.
  pose proof two256m1_pos as Hm.
  change (difficultyToTarget (difficultyToTarget (difficultyToTarget d))
          = difficultyToTarget d).
  assert (Hone : difficultyToTarget (difficultyToTarget 1) = 1)
    by reflexivity.
  destruct (Z_le_gt_dec d 0) as [H0|H0].
  { rewrite (difficultyToTarget_floor_one d) by lia.
    now rewrite Hone. }
  destruct (Z_le_gt_dec d two256m1) as [H1|H1].
  2:{ rewrite (difficultyToTarget_floor_one d) by lia. now rewrite Hone. }
  destruct (difficultyToTarget_quot d ltac:(lia)) as [-> Hq].
  set (t := two256m1 / d) in *.
  assert (Ht : t <= two256m1) by (subst t; apply Z.div_le_upper_bound; nia).
  destruct (difficultyToTarget_quot t ltac:(lia)) as [-> Hq'].
  set (d' := two256m1 / t) in *.
  assert (Hd' : d <= d').
  { subst d'. apply Z.div_le_lower_bound; [lia|].
    subst t. rewrite Z.mul_comm. apply Z.mul_div_le. lia. }
  assert (Hd'm : d' <= two256m1)
    by (subst d'; apply Z.div_le_upper_bound; nia).
  destruct (difficultyToTarget_quot d' ltac:(lia)) as [-> _].
  apply Z.le_antisymm.
  - subst t. apply Z.div_le_compat_l; lia.
  - apply Z.div_le_lower_bound; [lia|].
    subst d'. rewrite Z.mul_comm. apply Z.mul_div_le. lia.
Qed.

(** ** More on [ASERTNextTarget] *)

Section AsertShape.

Lemma asertFactor_zero : asertFactor 0 = 2 ^ 16.
Proof. reflexivity. Qed.

Lemma asertClamp_min target maxTarget :
  0 < target -> asertClamp target maxTarget = Z.min target maxTarget.
Proof.
  intros Ht. unfold asertClamp.
  destruct (Z.leb_spec target 0); [lia|].
  destruct (Z.gtb_spec target maxTarget); lia.
Qed.

(** The value before the clamp when the exponent is 0. *)
Lemma scaled_target_at_zero anchorTarget :
  Z.shiftl (anchorTarget * asertFactor (0 mod 2 ^ 16)) (0 / 2 ^ 16 - 16)
  = anchorTarget.
Proof.
  change (0 mod 2 ^ 16) with 0. change (0 / 2 ^ 16 - 16) with (- 16).
  rewrite asertFactor_zero, Z.shiftl_div_pow2 by lia.
  change (- - 16) with 16. apply Z.div_mul. lia.
Qed.

Lemma quot_sign a b :
  0 < b -> (0 <= a -> 0 <= Z.quot a b) /\ (a <= 0 -> Z.quot a b <= 0).
Proof.
  intros Hb. split; intros Ha.
  - apply Z.quot_pos; lia.
  - pose proof (Z.quot_le_mono a 0 b Hb Ha) as H.
    now rewrite Z.quot_0_l in H by lia.
Qed.

End AsertShape.

(** X6.  [ASERTNextTarget] depends on the heights and on the times through
    their differences only: moving both heights by [k] and both times by
    [s] changes nothing, and the anchor may be put at height 1 with the
    evaluation block at [1 + heightDelta], as the test harness does. *)
Theorem ASERTNextTarget_depends_on_deltas
    (anchorHeight anchorParentTime anchorTarget evalHeight evalTime
       maxTarget k s : Z) :
  0 < anchorHeight -> 0 < anchorHeight + k ->
  ASERTNextTarget (anchorHeight + k) (anchorParentTime + s) anchorTarget
    (evalHeight + k) (evalTime + s) maxTarget
  = ASERTNextTarget anchorHeight anchorParentTime anchorTarget evalHeight
      evalTime maxTarget
  /\ ASERTNextTarget 1 anchorParentTime anchorTarget
       (int64 (1 + int64 (evalHeight - anchorHeight))) evalTime maxTarget
     = ASERTNextTarget anchorHeight anchorParentTime anchorTarget evalHeight
         evalTime maxTarget.
Proof.
  intros Hh Hk. unfold ASERTNextTarget.
  destruct (Z.leb_spec (anchorHeight + k) 0); [lia|].
  destruct (Z.leb_spec anchorHeight 0); [lia|].
  change (1 <=? 0) with false. cbv iota.
  destruct (anchorTarget <=? 0); [split; reflexivity|].
  destruct (maxTarget <=? 0); [split; reflexivity|].
  unfold asertUnclamped, asertExponent.
  replace (evalTime + s - (anchorParentTime + s))
    with (evalTime - anchorParentTime) by ring.
  replace (evalHeight + k - (anchorHeight + k))
    with (evalHeight - anchorHeight) by ring.
  split; [reflexivity|].
  replace (int64 (int64 (1 + int64 (evalHeight - anchorHeight)) - 1))
    with (int64 (evalHeight - anchorHeight)); [reflexivity|].
  rewrite int64_sub_l.
  replace (1 + int64 (evalHeight - anchorHeight) - 1)
    with (int64 (evalHeight - anchorHeight)) by ring.
  symmetry. apply int64_small, int64_range.
Qed.

Lemma ASERTNextTarget_depends_on_deltas_witness :
  ASERTNextTarget (661648 + 5) (1605447844 + 77) (2 ^ 200) (661650 + 5)
    (1605449000 + 77) (2 ^ 224)
  = ASERTNextTarget 661648 1605447844 (2 ^ 200) 661650 1605449000 (2 ^ 224)
  /\ ASERTNextTarget 1 1605447844 (2 ^ 200)
       (int64 (1 + int64 (661650 - 661648))) 1605449000 (2 ^ 224)
     = ASERTNextTarget 661648 1605447844 (2 ^ 200) 661650 1605449000
         (2 ^ 224).
Proof.
  apply (ASERTNextTarget_depends_on_deltas 661648 1605447844 (2 ^ 200)
           661650 1605449000 (2 ^ 224) 5 77); lia.
Defined.

(** X7.  On schedule, that is when [evalTime - anchorParentTime] is exactly
    600 seconds per block for [heightDelta + 1] blocks, the function returns
    the anchor target, cut to [maxTarget]. *)
Theorem ASERTNextTarget_on_schedule
    (anchorHeight anchorParentTime anchorTarget evalHeight evalTime
       maxTarget : Z) :
  0 < anchorHeight -> 0 < anchorTarget -> 0 < maxTarget ->
  evalTime - anchorParentTime
  = asertIdealBlockTime * (evalHeight - anchorHeight + 1) ->
  ASERTNextTarget anchorHeight anchorParentTime anchorTarget evalHeight
    evalTime maxTarget
  = Returns (Z.min anchorTarget maxTarget).
Proof.
  intros Hh Ht Hm Hsched.
  rewrite ASERTNextTarget_returns by assumption. f_equal.
  rewrite asertUnclamped_shiftl, asertExponent_exact.
  - replace (evalTime - anchorParentTime
             - asertIdealBlockTime * (evalHeight - anchorHeight + 1))
      with 0 by lia.
    change (Z.quot (0 * asertRadix) asertHalflife) with 0.
    rewrite scaled_target_at_zero. now apply asertClamp_min.
  - replace (evalTime - anchorParentTime
             - asertIdealBlockTime * (evalHeight - anchorHeight + 1))
      with 0 by lia.
    unfold isInt64. simpl. lia.
Qed.

Lemma ASERTNextTarget_on_schedule_witness :
  ASERTNextTarget 1 0 (2 ^ 200) 11 6600 (2 ^ 224) = Returns (2 ^ 200).
Proof.
  apply (ASERTNextTarget_on_schedule 1 0 (2 ^ 200) 11 6600 (2 ^ 224));
    try lia; reflexivity.
Defined.

(** X8.  With everything else equal, a larger anchor target never gives a
    smaller result. *)
Theorem ASERTNextTarget_monotone_in_anchorTarget
    (anchorHeight anchorParentTime anchorTarget1 anchorTarget2 evalHeight
       evalTime maxTarget : Z) :
  0 < anchorHeight -> 0 < maxTarget ->
  0 < anchorTarget1 <= anchorTarget2 ->
  exists target1 target2,
    ASERTNextTarget anchorHeight anchorParentTime anchorTarget1 evalHeight
      evalTime maxTarget = Returns target1
    /\ ASERTNextTarget anchorHeight anchorParentTime anchorTarget2 evalHeight
         evalTime maxTarget = Returns target2
    /\ target1 <= target2.
Proof.
  intros Hh Hm Ht.
  do 2 eexists. rewrite !ASERTNextTarget_returns by (auto; lia).
  split; [reflexivity|]. split; [reflexivity|].
  apply asertClamp_mono; [assumption|].
  rewrite !asertUnclamped_shiftl.
  pose proof (asert_ux_range anchorHeight anchorParentTime evalHeight evalTime)
    as Hux.
  rewrite asertFrac_mod in Hux by apply asertExponent_isInt64.
  pose proof (asertFactor_range _ Hux) as Hf.
  apply shiftl_le_shiftl. intros j Hj Hj1 _.
  apply Z.mul_le_mono_nonneg_r; [apply Z.pow_nonneg; lia|].
  apply Z.mul_le_mono_nonneg_r; lia.
Qed.

Lemma ASERTNextTarget_monotone_in_anchorTarget_witness :
  exists target1 target2,
    ASERTNextTarget 1 0 (2 ^ 100) 5 1000 (2 ^ 224) = Returns target1
    /\ ASERTNextTarget 1 0 (2 ^ 100 + 12345) 5 1000 (2 ^ 224) = Returns target2
    /\ target1 <= target2.
Proof.
  apply (ASERTNextTarget_monotone_in_anchorTarget 1 0 (2 ^ 100)
           (2 ^ 100 + 12345) 5 1000 (2 ^ 224)); lia.
Defined.

(** X9.  With everything else equal and no [int64] overflow in
    [(timeDelta - 600*numBlocks) * 2^16], a higher evaluation height (more
    blocks found in the same time) never gives a higher target. *)
Theorem ASERTNextTarget_antitone_in_evalHeight
    (anchorHeight anchorParentTime anchorTarget evalHeight1 evalHeight2
       evalTime maxTarget : Z) :
  0 < anchorHeight -> 0 < anchorTarget -> 0 < maxTarget ->
  evalHeight1 <= evalHeight2 ->
  isInt64 ((evalTime - anchorParentTime
            - asertIdealBlockTime * (evalHeight1 - anchorHeight + 1))
           * asertRadix) ->
  isInt64 ((evalTime - anchorParentTime
            - asertIdealBlockTime * (evalHeight2 - anchorHeight + 1))
           * asertRadix) ->
  exists target1 target2,
    ASERTNextTarget anchorHeight anchorParentTime anchorTarget evalHeight1
      evalTime maxTarget = Returns target1
    /\ ASERTNextTarget anchorHeight anchorParentTime anchorTarget evalHeight2
         evalTime maxTarget = Returns target2
    /\ target2 <= target1.
Proof.
  intros Hh Ht Hm Hle Hr1 Hr2.
  do 2 eexists. rewrite !ASERTNextTarget_returns by assumption.
  split; [reflexivity|]. split; [reflexivity|].
  apply asertClamp_mono; [assumption|].
  rewrite !asertUnclamped_shiftl.
  apply scaled_target_mono; [lia|].
  rewrite (asertExponent_exact _ _ _ _ Hr1), (asertExponent_exact _ _ _ _ Hr2).
  apply Z.quot_le_mono; [reflexivity|].
  apply Z.mul_le_mono_nonneg_r; [discriminate|].
  unfold asertIdealBlockTime. lia.
Qed.

Lemma ASERTNextTarget_antitone_in_evalHeight_witness :
  exists target1 target2,
    ASERTNextTarget 1 0 (2 ^ 100) 5 100000 (2 ^ 224) = Returns target1
    /\ ASERTNextTarget 1 0 (2 ^ 100) 50 100000 (2 ^ 224) = Returns target2
    /\ target2 <= target1.
Proof.
  apply (ASERTNextTarget_antitone_in_evalHeight 1 0 (2 ^ 100) 5 50 100000
           (2 ^ 224));
    try lia; unfold isInt64; vm_compute;
    (split; [discriminate | reflexivity]).
Defined.

(** X10.  Before the clamp the result lies between the anchor target
    shifted by [numShifts] and the anchor target shifted by
    [numShifts + 1]: the cubic only interpolates between two consecutive
    powers of two. *)
Theorem asertUnclamped_between_shifts
    (anchorHeight anchorParentTime anchorTarget evalHeight evalTime : Z) :
  0 <= anchorTarget ->
  let n :=
    asertNumShifts
      (asertExponent anchorHeight anchorParentTime evalHeight evalTime) in
  let u :=
    asertUnclamped anchorHeight anchorParentTime anchorTarget evalHeight
      evalTime in
  Z.shiftl anchorTarget n <= u <= Z.shiftl anchorTarget (n + 1).
Proof.
  intros Ht n u. subst n u.
  rewrite asertUnclamped_shiftl, asertNumShifts_div.
  set (e := asertExponent anchorHeight anchorParentTime evalHeight evalTime).
  pose proof (Z.mod_pos_bound e (2 ^ 16) ltac:(lia)) as Hmod.
  pose proof (asertFactor_range _ Hmod) as Hf.
  set (f := asertFactor (e mod 2 ^ 16)) in *.
  set (q := e / 2 ^ 16).
  split; apply shiftl_le_shiftl; intros j Hj Hj1 Hj2.
  - replace (q + j) with (16 + (q - 16 + j)) by lia.
    rewrite (Z.pow_add_r 2 16 (q - 16 + j)) by lia.
    pose proof (pow2_pos (q - 16 + j) ltac:(lia)) as Hp.
    rewrite Z.mul_assoc.
    apply Z.mul_le_mono_nonneg_r; [lia|].
    apply Z.mul_le_mono_nonneg_l; lia.
  - replace (q + 1 + j) with (17 + (q - 16 + j)) by lia.
    rewrite (Z.pow_add_r 2 17 (q - 16 + j)) by lia.
    pose proof (pow2_pos (q - 16 + j) ltac:(lia)) as Hp.
    rewrite Z.mul_assoc.
    apply Z.mul_le_mono_nonneg_r; [lia|].
    apply Z.mul_le_mono_nonneg_l; lia.
Qed.

Lemma asertUnclamped_between_shifts_witness :
  Z.shiftl (2 ^ 100)
    (asertNumShifts (asertExponent 1 0 5 1000000))
  <= asertUnclamped 1 0 (2 ^ 100) 5 1000000
  <= Z.shiftl (2 ^ 100)
       (asertNumShifts (asertExponent 1 0 5 1000000) + 1).
Proof.
  apply (asertUnclamped_between_shifts 1 0 (2 ^ 100) 5 1000000). lia.
Defined.

(** X11.  Without [int64] overflow: when the chain is behind schedule
    ([timeDelta >= 600*numBlocks]) the result is not below the anchor target
    cut to [maxTarget]; when it is ahead of schedule the result is not
    above the anchor target. *)
Theorem ASERTNextTarget_follows_schedule
    (anchorHeight anchorParentTime anchorTarget evalHeight evalTime
       maxTarget : Z) :
  let drift :=
    evalTime - anchorParentTime
    - asertIdealBlockTime * (evalHeight - anchorHeight + 1) in
  0 < anchorHeight -> 0 < anchorTarget -> 0 < maxTarget ->
  isInt64 (drift * asertRadix) ->
  exists target,
    ASERTNextTarget anchorHeight anchorParentTime anchorTarget evalHeight
      evalTime maxTarget = Returns target
    /\ (0 <= drift -> Z.min anchorTarget maxTarget <= target)
    /\ (drift <= 0 -> target <= anchorTarget).
Proof.
  intros drift Hh Ht Hm Hr.
  eexists. rewrite ASERTNextTarget_returns by assumption.
  split; [reflexivity|].
  rewrite asertUnclamped_shiftl, (asertExponent_exact _ _ _ _ Hr).
  fold drift.
  destruct (quot_sign (drift * asertRadix) asertHalflife eq_refl)
    as [Hpos Hneg].
  split; intros Hd.
  - rewrite <- (asertClamp_min anchorTarget maxTarget Ht).
    apply asertClamp_mono; [assumption|].
    rewrite <- (scaled_target_at_zero anchorTarget) at 1.
    apply scaled_target_mono; [lia|].
    apply Hpos. change asertRadix with 65536. lia.
  - set (e := Z.quot (drift * asertRadix) asertHalflife) in *.
    assert (He : e <= 0) by (apply Hneg; change asertRadix with 65536; lia).
    pose proof (scaled_target_mono anchorTarget e 0 ltac:(lia) He) as Hle.
    rewrite scaled_target_at_zero in Hle.
    unfold asertClamp.
    destruct (Z.leb_spec
                (Z.shiftl (anchorTarget * asertFactor (e mod 2 ^ 16))
                   (e / 2 ^ 16 - 16)) 0); [lia|].
    destruct (Z.gtb_spec
                (Z.shiftl (anchorTarget * asertFactor (e mod 2 ^ 16))
                   (e / 2 ^ 16 - 16)) maxTarget); lia.
Qed.

Lemma ASERTNextTarget_follows_schedule_witness :
  exists target,
    ASERTNextTarget 1 0 (2 ^ 100) 5 1000000 (2 ^ 224) = Returns target
    /\ (0 <= 1000000 - 0 - asertIdealBlockTime * (5 - 1 + 1) ->
        Z.min (2 ^ 100) (2 ^ 224) <= target)
    /\ (1000000 - 0 - asertIdealBlockTime * (5 - 1 + 1) <= 0 ->
        target <= 2 ^ 100).
Proof.
  apply (ASERTNextTarget_follows_schedule 1 0 (2 ^ 100) 5 1000000 (2 ^ 224));
    try lia.
  unfold isInt64. vm_compute. split; [discriminate | reflexivity].
Defined.

(** ** More on the compact codec *)

Section EncoderShape.

(** The encoder on a target within the limit: the byte length [n], the
    three top bytes [k], and the value returned. *)
Lemma encode_parts t :
  0 < t <= 0xffff * 2 ^ 208 ->
  exists n k,
    1 <= n <= 28
    /\ 2 ^ (8 * (n - 1)) <= t < 2 ^ (8 * n)
    /\ 2 ^ 16 <= k < 2 ^ 24
    /\ (n <= 3 -> k = t * 2 ^ (8 * (3 - n)))
    /\ (3 < n -> k = t / 2 ^ (8 * (n - 3)))
    /\ targetToBitsBCH t
       = Returns (if 2 ^ 23 <=? k
                  then Z.lor (Z.shiftr k 8) (Z.shiftl (n + 1) 24)
                  else Z.lor k (Z.shiftl n 24)).
Proof.
  intros Ht.
  destruct (byte_length_exists t Ht) as (n & Hn & Hb & Hlen).
  exists n.
  exists (if n <=? 3 then Z.shiftl t (8 * (3 - n))
          else Z.shiftr t (8 * (n - 3))).
  assert (Hk : 2 ^ 16 <= (if n <=? 3 then Z.shiftl t (8 * (3 - n))
                          else Z.shiftr t (8 * (n - 3))) < 2 ^ 24).
  { destruct (Z.leb_spec n 3).
    - rewrite Z.shiftl_mul_pow2 by lia.
      pose proof (pow2_pos (8 * (3 - n)) ltac:(lia)) as Hp.
      assert (Elo : 2 ^ (8 * (n - 1)) * 2 ^ (8 * (3 - n)) = 2 ^ 16).
      { rewrite <- Z.pow_add_r by lia. f_equal. lia. }
      assert (Ehi : 2 ^ (8 * n) * 2 ^ (8 * (3 - n)) = 2 ^ 24).
      { rewrite <- Z.pow_add_r by lia. f_equal. lia. }
      split.
      + rewrite <- Elo. apply Z.mul_le_mono_nonneg_r; lia.
      + rewrite <- Ehi. apply Z.mul_lt_mono_pos_r; lia.
    - rewrite Z.shiftr_div_pow2 by lia.
      pose proof (pow2_pos (8 * (n - 3)) ltac:(lia)) as Hp.
      replace (8 * (n - 1)) with (16 + 8 * (n - 3)) in Hb by lia.
      replace (8 * n) with (24 + 8 * (n - 3)) in Hb by lia.
      rewrite (Z.pow_add_r 2 16), (Z.pow_add_r 2 24) in Hb by lia.
      split.
      + apply Z.div_le_lower_bound; lia.
      + apply Z.div_lt_upper_bound; lia. }
  split; [exact Hn|]. split; [exact Hb|]. split; [exact Hk|].
  split; [|split].
  - intros H3. destruct (Z.leb_spec n 3); [|lia].
    apply Z.shiftl_mul_pow2. lia.
  - intros H3. destruct (Z.leb_spec n 3); [lia|].
    apply Z.shiftr_div_pow2. lia.
  - apply targetToBitsBCH_eq; auto; lia.
Qed.

Lemma bitsToTargetBCH_of_parts size mant :
  1 <= size <= 29 -> 0 <= mant < 2 ^ 23 ->
  bitsToTargetBCH (Z.lor mant (Z.shiftl size 24))
  = if size <=? 3 then mant / 2 ^ (8 * (3 - size))
    else mant * 2 ^ (8 * (size - 3)).
Proof.
  intros Hs Hm.
  destruct (compact_of_parts mant size) as [Es Em]; try lia.
  rewrite bitsToTargetBCH_eq.
  - now rewrite Es, Em.
  - unfold isUint32. rewrite disjoint_lor by lia. lia.
  - rewrite Em. lia.
Qed.

(** Encoding what a canonical pair of size and mantissa decodes to gives
    the pair back. *)
Lemma encode_decoded_parts size mant :
  1 <= size <= 29 -> 0x008000 <= mant <= 0x7fffff ->
  (size < 3 -> mant mod 2 ^ (8 * (3 - size)) = 0) ->
  (size = 29 -> mant <= 0x00ffff) ->
  targetToBitsBCH
    (if size <=? 3 then mant / 2 ^ (8 * (3 - size))
     else mant * 2 ^ (8 * (size - 3)))
  = Returns (Z.lor mant (Z.shiftl size 24)).
Proof.
  intros Hs Hm Hlow Htop.
  destruct (Z.leb_spec size 3) as [Hle|Hgt].
  - assert (Hcases : size = 1 \/ size = 2 \/ size = 3) by lia.
    destruct Hcases as [E|[E|E]]; rewrite E in *.
    + apply encode_size1; [lia | apply Hlow; lia].
    + apply encode_size2; [lia | apply Hlow; lia].
    + change (2 ^ (8 * (3 - 3))) with 1. rewrite Z.div_1_r.
      replace mant with (mant * 2 ^ (8 * (3 - 3))) at 1
        by (change (2 ^ (8 * (3 - 3))) with 1; lia).
      destruct (Z_lt_ge_dec mant 0x010000).
      * apply encode_narrow_mantissa; lia.
      * apply encode_wide_mantissa; lia.
  - destruct (Z_lt_ge_dec mant 0x010000).
    + apply encode_narrow_mantissa; lia.
    + apply encode_wide_mantissa; lia.
Qed.

Lemma targetToBitsBCH_returns t :
  0 < t -> exists b, targetToBitsBCH t = Returns b.
Proof.
  intros Ht. rewrite targetToBitsBCH_clamps by assumption.
  destruct (encode_parts (Z.min t (0xffff * 2 ^ 208)) ltac:(lia))
    as (n & k & _ & _ & _ & _ & _ & Hret).
  eexists. exact Hret.
Qed.

End EncoderShape.

(** X12.  [targetToBitsBCH] panics on nothing but targets [<= 0], and
    whatever it returns is a 32-bit value with bit 23 (the sign bit of the
    format) clear, a size between 1 and 29, a mantissa of at least
    [0x008000], and at most [asertMaxBits]. *)
Theorem targetToBitsBCH_output_shape (target : Z) :
  (target <= 0 -> targetToBitsBCH target = Panics "invalid target sign")
  /\ (0 < target ->
      exists b,
        targetToBitsBCH target = Returns b
        /\ isUint32 b
        /\ Z.testbit b 23 = false
        /\ 1 <= compactSize b <= 29
        /\ 0x008000 <= compactMantissa b <= 0x7fffff
        /\ b <= asertMaxBits).
Proof.
  split; [apply targetToBitsBCH_panics_nonpos|].
  intros Ht. destruct (targetToBitsBCH_returns target Ht) as [b Hb].
  exists b. split; [exact Hb|].
  destruct (targetToBitsBCH_canonical target b Hb)
    as (Hu & Hsize & Hmant & _ & Hmax).
  destruct (compact_sum b) as [Hsum Hmb].
  split; [exact Hu|]. split.
  - rewrite Z.testbit_eqb by lia.
    replace (b / 2 ^ 23) with (2 * compactSize b); [now rewrite Z.mul_comm, Z.mod_mul by lia|].
    apply (Z.div_unique b (2 ^ 23) (2 * compactSize b) (compactMantissa b)); lia.
  - unfold asertMaxBits in *. repeat split; lia.
Qed.

(** X13.  Every target at or above the limit [bitsToTargetBCH asertMaxBits]
    is encoded as [asertMaxBits]. *)
Theorem targetToBitsBCH_clamps_to_max (target : Z) :
  bitsToTargetBCH asertMaxBits <= target ->
  targetToBitsBCH target = Returns asertMaxBits.
Proof.
  rewrite maxTarget_value. intros Hge.
  rewrite targetToBitsBCH_clamps by lia.
  rewrite Z.min_r by lia. reflexivity.
Qed.

Lemma targetToBitsBCH_clamps_to_max_witness :
  targetToBitsBCH (2 ^ 256 - 1) = Returns asertMaxBits.
Proof.
  apply (targetToBitsBCH_clamps_to_max (2 ^ 256 - 1)).
  vm_compute. discriminate.
Defined.

(** X14.  For a target [t] in [[1, limit]], decoding the encoding of [t]
    gives [t] with its low [c = 8 * max(0, size - 3)] bits cleared, where
    [size] is the size field of the encoding: the result is at most [t],
    less than [2^c] below it, and equal to [t] for every [t < 2^23]. *)
Theorem decode_encode_truncates (t : Z) :
  0 < t <= bitsToTargetBCH asertMaxBits ->
  exists b,
    targetToBitsBCH t = Returns b
    /\ let c := 8 * Z.max 0 (compactSize b - 3) in
       bitsToTargetBCH b = t / 2 ^ c * 2 ^ c
       /\ bitsToTargetBCH b <= t < bitsToTargetBCH b + 2 ^ c
       /\ (t < 2 ^ 23 -> bitsToTargetBCH b = t).
Proof.
  rewrite maxTarget_value. intros Ht.
  destruct (encode_parts t Ht) as (n & k & Hn & Hb & Hk & Hlow & Hhigh & Hret).
  eexists. split; [exact Hret|]. cbv zeta.
  assert (Hfloor : forall c, 0 <= c ->
            t / 2 ^ c * 2 ^ c <= t < t / 2 ^ c * 2 ^ c + 2 ^ c).
  { intros c Hc. pose proof (pow2_pos c Hc).
    pose proof (Z.div_mod t (2 ^ c) ltac:(lia)).
    pose proof (Z.mod_pos_bound t (2 ^ c) ltac:(lia)). lia. }
  assert (Hsmall : t < 2 ^ 23 -> n <= 3).
  { intros Hs. destruct (Z_le_gt_dec n 3); [assumption|].
    assert (2 ^ 24 <= 2 ^ (8 * (n - 1))) by (apply Z.pow_le_mono_r; lia).
    lia. }
  destruct (Z.leb_spec (2 ^ 23) k) as [Hge|Hlt].
  - (* the mantissa is moved down one byte, the size is n + 1 *)
    assert (Hm : 2 ^ 15 <= Z.shiftr k 8 < 2 ^ 16).
    { rewrite Z.shiftr_div_pow2 by lia. split.
      - apply Z.div_le_lower_bound; lia.
      - apply Z.div_lt_upper_bound; lia. }
    destruct (compact_of_parts (Z.shiftr k 8) (n + 1)) as [Es _]; try lia.
    rewrite Es, bitsToTargetBCH_of_parts by lia.
    rewrite Z.shiftr_div_pow2 in * by lia.
    destruct (Z.leb_spec (n + 1) 3) as [Hn3|Hn3].
    + rewrite Z.max_l by lia. change (8 * 0) with 0. change (2 ^ 0) with 1.
      rewrite Z.div_1_r, Z.mul_1_r.
      assert (E : k / 2 ^ 8 / 2 ^ (8 * (3 - (n + 1))) = t).
      { rewrite Hlow by lia.
        rewrite Z.div_div by (try apply pow2_pos; lia).
        rewrite <- Z.pow_add_r by lia.
        replace (8 + 8 * (3 - (n + 1))) with (8 * (3 - n)) by lia.
        apply Z.div_mul. apply Z.pow_nonzero; lia. }
      rewrite E. repeat split; try lia.
    + rewrite Z.max_r by lia.
      replace (n + 1 - 3) with (n - 2) by lia.
      assert (E : k / 2 ^ 8 = t / 2 ^ (8 * (n - 2))).
      { destruct (Z.eq_dec n 3) as [E3|Hne].
        - rewrite Hlow by lia. subst n.
          change (8 * (3 - 3)) with 0. change (8 * (3 - 2)) with 8.
          now rewrite Z.mul_1_r.
        - rewrite Hhigh by lia.
          rewrite Z.div_div by (try apply pow2_pos; lia).
          rewrite <- Z.pow_add_r by lia.
          do 2 f_equal. lia. }
      rewrite E. split; [reflexivity|]. split.
      * apply Hfloor. lia.
      * intros Hs. specialize (Hsmall Hs).
        assert (n = 3) by lia. subst n.
        rewrite Hlow in Hge by lia.
        change (8 * (3 - 3)) with 0 in Hge. lia.
  - (* the three top bytes are the mantissa, the size is n *)
    destruct (compact_of_parts k n) as [Es _]; try lia.
    rewrite Es, bitsToTargetBCH_of_parts by lia.
    destruct (Z.leb_spec n 3) as [Hn3|Hn3].
    + rewrite Z.max_l by lia. change (8 * 0) with 0. change (2 ^ 0) with 1.
      rewrite Z.div_1_r, Z.mul_1_r.
      rewrite Hlow by lia.
      rewrite Z.div_mul by (apply Z.pow_nonzero; lia).
      repeat split; try lia.
    + rewrite Z.max_r by lia. rewrite Hhigh by lia.
      split; [reflexivity|]. split.
      * apply Hfloor. lia.
      * intros Hs. specialize (Hsmall Hs). lia.
Qed.

Lemma decode_encode_truncates_witness :
  exists b,
    targetToBitsBCH (2 ^ 200 + 12345) = Returns b
    /\ let c := 8 * Z.max 0 (compactSize b - 3) in
       bitsToTargetBCH b = (2 ^ 200 + 12345) / 2 ^ c * 2 ^ c
       /\ bitsToTargetBCH b <= 2 ^ 200 + 12345 < bitsToTargetBCH b + 2 ^ c
       /\ (2 ^ 200 + 12345 < 2 ^ 23 -> bitsToTargetBCH b = 2 ^ 200 + 12345).
Proof.
  apply (decode_encode_truncates (2 ^ 200 + 12345)).
  vm_compute. split; [reflexivity | discriminate].
Defined.

(** X15.  Encoding is idempotent through decoding: whatever
    [targetToBitsBCH] returns, decoding it and encoding again returns the
    same compact value. *)
Theorem encode_decode_encode (t b : Z) :
  targetToBitsBCH t = Returns b ->
  targetToBitsBCH (bitsToTargetBCH b) = Returns b.
Proof.
  intros Hret.
  destruct (targetToBitsBCH_canonical t b Hret)
    as (Hu & Hsize & Hmant & Hlow & Hmax).
  destruct (compact_sum b) as [Hsum Hmb].
  unfold asertMaxBits in Hmax.
  rewrite bitsToTargetBCH_eq by (auto; lia).
  pose proof (encode_decoded_parts (compactSize b) (compactMantissa b)
                ltac:(lia) Hmant Hlow ltac:(lia)) as H.
  rewrite compact_split in H. rewrite <- H.
  now destruct (compactSize b <=? 3).
Qed.

Lemma encode_decode_encode_witness :
  targetToBitsBCH (bitsToTargetBCH 0x1b0404cb) = Returns 0x1b0404cb.
Proof.
  apply (encode_decode_encode (0x0404cb * 2 ^ 192 + 99) 0x1b0404cb).
  reflexivity.
Defined.

(** X16.  [bitsToTargetBCH] never returns a negative target and never reads
    bit 23 of its argument: setting that bit changes nothing. *)
Theorem bitsToTargetBCH_ignores_sign_bit (bits : Z) :
  0 <= bits ->
  0 <= bitsToTargetBCH bits
  /\ bitsToTargetBCH (Z.lor bits 0x00800000) = bitsToTargetBCH bits.
Proof.
  intros Hb. split.
  - unfold bitsToTargetBCH.
    assert (0 <= Z.land bits 0x007fffff) by (apply Z.land_nonneg; lia).
    destruct (Z.shiftr bits 24 <=? 3).
    + now apply Z.shiftr_nonneg.
    + now apply Z.shiftl_nonneg.
  - unfold bitsToTargetBCH.
    rewrite Z.shiftr_lor. change (Z.shiftr 0x00800000 24) with 0.
    rewrite Z.lor_0_r.
    rewrite Z.land_lor_distr_l. change (Z.land 0x00800000 0x007fffff) with 0.
    now rewrite Z.lor_0_r.
Qed.

Lemma bitsToTargetBCH_ignores_sign_bit_witness :
  0 <= bitsToTargetBCH 0x1d00ffff
  /\ bitsToTargetBCH (Z.lor 0x1d00ffff 0x00800000)
     = bitsToTargetBCH 0x1d00ffff.
Proof. apply (bitsToTargetBCH_ignores_sign_bit 0x1d00ffff). lia. Defined.

(** X17.  The result of [ASERTNextTarget] can always be encoded: under the
    preconditions [targetToBitsBCH] does not panic on it and returns a
    compact value in the encoder's normal form. *)
Theorem ASERTNextTarget_result_encodes
    (anchorHeight anchorParentTime anchorTarget evalHeight evalTime
       maxTarget : Z) :
  0 < anchorHeight -> 0 < anchorTarget -> 0 < maxTarget ->
  exists target b,
    ASERTNextTarget anchorHeight anchorParentTime anchorTarget evalHeight
      evalTime maxTarget = Returns target
    /\ targetToBitsBCH target = Returns b
    /\ isUint32 b /\ canonicalCompact b.
Proof.
  intros Hh Ht Hm.
  rewrite ASERTNextTarget_returns by assumption.
  pose proof (asertClamp_range
                (asertUnclamped anchorHeight anchorParentTime anchorTarget
                   evalHeight evalTime) maxTarget Hm) as Hr.
  destruct (targetToBitsBCH_returns
              (asertClamp
                 (asertUnclamped anchorHeight anchorParentTime anchorTarget
                    evalHeight evalTime) maxTarget) ltac:(lia)) as [b Hb].
  do 2 eexists. split; [reflexivity|]. split; [exact Hb|].
  now apply targetToBitsBCH_canonical in Hb.
Qed.

Lemma ASERTNextTarget_result_encodes_witness :
  exists target b,
    ASERTNextTarget 1 0 (bitsToTargetBCH 0x1d00ffff) 5 1000000
      (bitsToTargetBCH asertMaxBits) = Returns target
    /\ targetToBitsBCH target = Returns b
    /\ isUint32 b /\ canonicalCompact b.
Proof.
  apply (ASERTNextTarget_result_encodes 1 0 (bitsToTargetBCH 0x1d00ffff) 5
           1000000 (bitsToTargetBCH asertMaxBits));
    try lia; reflexivity.
Defined.

Section EncoderOrder.

Lemma encode_parts_value n k :
  1 <= n <= 28 -> 2 ^ 16 <= k < 2 ^ 24 ->
  (if 2 ^ 23 <=? k
   then Z.lor (Z.shiftr k 8) (Z.shiftl (n + 1) 24)
   else Z.lor k (Z.shiftl n 24))
  = if 2 ^ 23 <=? k then (n + 1) * 2 ^ 24 + k / 2 ^ 8 else n * 2 ^ 24 + k.
Proof.
  intros Hn Hk. destruct (Z.leb_spec (2 ^ 23) k).
  - rewrite Z.shiftr_div_pow2 by lia.
    apply disjoint_lor; [|lia]. split.
    + apply Z.div_pos; lia.
    + apply Z.div_lt_upper_bound; lia.
  - apply disjoint_lor; lia.
Qed.

Lemma targetToBitsBCH_mono_within t1 t2 :
  0 < t1 <= t2 -> t2 <= 0xffff * 2 ^ 208 ->
  exists b1 b2,
    targetToBitsBCH t1 = Returns b1 /\ targetToBitsBCH t2 = Returns b2
    /\ b1 <= b2.
Proof.
  intros H12 Hmax.
  destruct (encode_parts t1 ltac:(lia))
    as (n1 & k1 & Hn1 & Hb1 & Hk1 & Hlow1 & Hhigh1 & Hret1).
  destruct (encode_parts t2 ltac:(lia))
    as (n2 & k2 & Hn2 & Hb2 & Hk2 & Hlow2 & Hhigh2 & Hret2).
  rewrite encode_parts_value in Hret1, Hret2 by assumption.
  do 2 eexists. split; [exact Hret1|]. split; [exact Hret2|].
  assert (Hn : n1 <= n2).
  { assert (Hlt : 2 ^ (8 * (n1 - 1)) < 2 ^ (8 * n2)) by lia.
    apply Z.pow_lt_mono_r_iff in Hlt; lia. }
  assert (Hd1 : 0 <= k1 / 2 ^ 8 < 2 ^ 16).
  { split; [apply Z.div_pos; lia | apply Z.div_lt_upper_bound; lia]. }
  assert (Hd2 : 0 <= k2 / 2 ^ 8 < 2 ^ 16).
  { split; [apply Z.div_pos; lia | apply Z.div_lt_upper_bound; lia]. }
  destruct (Z.eq_dec n1 n2) as [E|Hne].
  - subst n2.
    assert (Hk : k1 <= k2).
    { destruct (Z_le_gt_dec n1 3).
      - rewrite Hlow1, Hlow2 by lia.
        apply Z.mul_le_mono_nonneg_r; [apply Z.pow_nonneg|]; lia.
      - rewrite Hhigh1, Hhigh2 by lia.
        apply Z.div_le_mono; [apply pow2_pos|]; lia. }
    assert (Hk8 : k1 / 2 ^ 8 <= k2 / 2 ^ 8) by (apply Z.div_le_mono; lia).
    destruct (Z.leb_spec (2 ^ 23) k1), (Z.leb_spec (2 ^ 23) k2); lia.
  - destruct (Z.leb_spec (2 ^ 23) k1), (Z.leb_spec (2 ^ 23) k2); nia.
Qed.

End EncoderOrder.

(** X18.  [targetToBitsBCH] preserves the order of targets: a larger target
    never gets a smaller compact value (compared as 32-bit numbers). *)
Theorem targetToBitsBCH_monotone (t1 t2 : Z) :
  0 < t1 <= t2 ->
  exists b1 b2,
    targetToBitsBCH t1 = Returns b1 /\ targetToBitsBCH t2 = Returns b2
    /\ b1 <= b2.
Proof.
  intros H12.
  rewrite (targetToBitsBCH_clamps t1), (targetToBitsBCH_clamps t2) by lia.
  apply targetToBitsBCH_mono_within; lia.
Qed.

Lemma targetToBitsBCH_monotone_witness :
  exists b1 b2,
    targetToBitsBCH (2 ^ 23 - 1) = Returns b1
    /\ targetToBitsBCH (2 ^ 23) = Returns b2
    /\ b1 <= b2.
Proof. apply (targetToBitsBCH_monotone (2 ^ 23 - 1) (2 ^ 23)). lia. Defined.

(** ** More on the supply figures *)

Section SupplyShape.

Lemma halvingReward_nonneg block : 0 <= halvingReward block.
Proof. unfold halvingReward. apply Z.shiftr_nonneg. lia. Qed.

Lemma halvingReward_genesis : halvingReward 1 <= halvingReward 0.
Proof. vm_compute. discriminate. Qed.

Lemma halvingReward_bounded block : 0 <= block -> 0 <= halvingReward block <= 50.
Proof.
  intros Hb. split; [apply halvingReward_nonneg|].
  unfold halvingReward. rewrite Z.shiftr_div_pow2
    by (apply Z.div_pos; [lia | reflexivity]).
  apply Z.div_le_upper_bound.
  - apply pow2_pos. apply Z.div_pos; [lia | reflexivity].
  - pose proof (pow2_pos (block / halvingInterval)
                  ltac:(apply Z.div_pos; [lia | reflexivity])). lia.
Qed.

Variable calcBlockReward : Z -> Z.

(** Below the first halving both functions run the same computation. *)
Lemma totalEmissions_first_era_partial n :
  0 <= n < halvingInterval ->
  totalEmissions calcBlockReward n = n * calcBlockReward 1
  /\ maturedEmissions calcBlockReward n = n * calcBlockReward 1.
Proof.
  intros Hn. unfold totalEmissions, maturedEmissions. cbv zeta.
  rewrite (Z.div_small n halvingInterval), (Z.mod_small n halvingInterval)
    by lia.
  cbn [eraRange Z.to_nat seq map fold_left].
  change (uint64 (0 * halvingInterval) =? 0) with true. cbv iota.
  destruct (Z.ltb_spec 0 n); [split; lia|].
  assert (n = 0) by lia. subst n. split; reflexivity.
Qed.

(** After the first halving, [totalEmissions] is [maturedEmissions] for the
    schedule that pays the genesis reward at block 1. *)
Lemma totalEmissions_as_matured n :
  isUint64 n -> halvingInterval <= n ->
  totalEmissions calcBlockReward n
  = maturedEmissions
      (fun block => if block =? 1 then calcBlockReward 0
                    else calcBlockReward block) n.
Proof.
  intros Hu Hn.
  rewrite totalEmissions_first_era, maturedEmissions_first_era by assumption.
  change (1 =? 1) with true. cbv iota. f_equal.
  apply laterEras_ext; [|assumption].
  intros block Hb.
  destruct (Z.eqb_spec block 1); [unfold halvingInterval in *; lia|].
  reflexivity.
Qed.

Lemma maturedEmissions_bounded_nat (r : Z -> Z) (cap : Z) (k : nat) :
  (forall block, 0 <= r block <= cap) ->
  Z.of_nat k < 2 ^ 64 ->
  0 <= maturedEmissions r (Z.of_nat k) <= Z.of_nat k * cap.
Proof.
  intros Hr. induction k as [|k IH]; intros Hk.
  - change (maturedEmissions r (Z.of_nat 0)) with 0. lia.
  - replace (Z.of_nat (S k)) with (Z.of_nat k + 1) by lia.
    rewrite maturedEmissions_step by lia.
    specialize (IH ltac:(lia)).
    match goal with
    | |- context [r ?b] => pose proof (Hr b)
    end.
    lia.
Qed.

Lemma maturedEmissions_bounded (r : Z -> Z) (cap n : Z) :
  (forall block, 0 <= r block <= cap) ->
  isUint64 n ->
  0 <= maturedEmissions r n <= n * cap.
Proof.
  intros Hr Hn. unfold isUint64 in Hn.
  replace n with (Z.of_nat (Z.to_nat n)) by lia.
  apply maturedEmissions_bounded_nat; [assumption | lia].
Qed.

End SupplyShape.

Lemma GetCirculatingSupply_monotone_witness :
  exists c1 c2,
    parseDecimal (GetCirculatingSupply halvingReward (Some 150000)) = Some c1
    /\ parseDecimal (GetCirculatingSupply halvingReward (Some 650000))
       = Some c2
    /\ c1 <= c2.
Proof.
  apply (GetCirculatingSupply_monotone halvingReward halvingReward_nonneg
           150000 650000); unfold isUint64; lia.
Defined.

Lemma GetTotalSupply_monotone_witness :
  exists t1 t2,
    parseDecimal (GetTotalSupply halvingReward (Some 209999)) = Some t1
    /\ parseDecimal (GetTotalSupply halvingReward (Some 210000)) = Some t2
    /\ t1 <= t2.
Proof.
  apply (GetTotalSupply_monotone halvingReward halvingReward_nonneg
           halvingReward_genesis 209999 210000); unfold isUint64; lia.
Defined.

Lemma GetCirculatingSupply_le_total_witness :
  exists c t,
    parseDecimal (GetCirculatingSupply halvingReward (Some 210000)) = Some c
    /\ parseDecimal (GetTotalSupply halvingReward (Some 210000)) = Some t
    /\ c <= t.
Proof.
  apply (GetCirculatingSupply_le_total halvingReward halvingReward_nonneg
           halvingReward_genesis 210000); unfold isUint64; lia.
Defined.

(** X22.  Coinbase maturity: up to tip 100 the circulating supply is "0";
    from tip 101 on, and as long as fewer than [halvingInterval] blocks have
    matured, it is the total supply of 100 blocks earlier, namely
    [(tip - 100) * reward(1)]. *)
Theorem circulating_lags_total (calcBlockReward : Z -> Z) (tip : Z) :
  isUint64 tip ->
  (tip <= coinbaseMaturity ->
   GetCirculatingSupply calcBlockReward (Some tip) = "0"%string)
  /\ (coinbaseMaturity < tip -> tip - coinbaseMaturity < halvingInterval ->
      GetCirculatingSupply calcBlockReward (Some tip)
      = GetTotalSupply calcBlockReward (Some (tip - coinbaseMaturity))
      /\ GetCirculatingSupply calcBlockReward (Some tip)
         = bigString ((tip - coinbaseMaturity) * calcBlockReward 1)).
Proof.
  intros Htip. split.
  - intros Hle. now rewrite GetCirculatingSupply_immature.
  - intros Hgt Hera.
    rewrite GetCirculatingSupply_emissions by assumption.
    rewrite GetTotalSupply_emissions
      by (unfold isUint64, coinbaseMaturity in *; lia).
    destruct (totalEmissions_first_era_partial calcBlockReward
                (tip - coinbaseMaturity) ltac:(lia)) as [-> ->].
    split; reflexivity.
Qed.

Lemma circulating_lags_total_witness :
  GetCirculatingSupply halvingReward (Some 100) = "0"%string
  /\ GetCirculatingSupply halvingReward (Some 101)
     = GetTotalSupply halvingReward (Some 1)
  /\ GetCirculatingSupply halvingReward (Some 101) = "50"%string.
Proof.
  assert (H100 : isUint64 100) by (unfold isUint64; lia).
  assert (H101 : isUint64 101) by (unfold isUint64; lia).
  destruct (circulating_lags_total halvingReward 100 H100) as [Hzero _].
  destruct (circulating_lags_total halvingReward 101 H101) as [_ Hlag].
  split; [apply Hzero; unfold coinbaseMaturity; lia|].
  destruct Hlag as [Heq Hval];
    [unfold coinbaseMaturity; lia
    |unfold coinbaseMaturity, halvingInterval; lia|].
  split; [exact Heq | exact Hval].
Defined.

(** X23.  One more block on a tip above 100 adds to the circulating supply
    exactly the reward sampled for era [(tip - 100) / 210000], the era the
    matured height was in before the block: the reward of block 1 when that
    era is 0, and of block [era * 210000] otherwise.  This is not always the
    era of the block that matures: from tip 210099 to 210100 block 210000
    matures, and the supply grows by the reward of block 1. *)
Theorem circulating_grows_by_sampled_reward
    (calcBlockReward : Z -> Z) (tip : Z) :
  coinbaseMaturity < tip -> tip + 1 < 2 ^ 64 ->
  let era := (tip - coinbaseMaturity) / halvingInterval in
  let sampleBlock := if era =? 0 then 1 else era * halvingInterval in
  exists c,
    parseDecimal (GetCirculatingSupply calcBlockReward (Some tip)) = Some c
    /\ parseDecimal (GetCirculatingSupply calcBlockReward (Some (tip + 1)))
       = Some (c + calcBlockReward sampleBlock).
Proof.
  intros Hgt Hlt era sampleBlock.
  unfold coinbaseMaturity in *.
  eexists.
  rewrite !GetCirculatingSupply_emissions
    by (unfold isUint64, coinbaseMaturity; lia).
  rewrite !parseDecimal_bigString. split; [reflexivity|].
  unfold coinbaseMaturity.
  replace (tip + 1 - 100) with (tip - 100 + 1) by ring.
  rewrite maturedEmissions_step by lia.
  do 3 f_equal. subst sampleBlock era. unfold coinbaseMaturity.
  destruct (Z.eqb_spec ((tip - 100) / halvingInterval) 0) as [E|E].
  - now rewrite E.
  - destruct (Z.eqb_spec ((tip - 100) / halvingInterval * halvingInterval) 0);
      [unfold halvingInterval in *; lia | reflexivity].
Qed.

Lemma circulating_grows_by_sampled_reward_witness :
  exists c,
    parseDecimal (GetCirculatingSupply halvingReward (Some 210099)) = Some c
    /\ parseDecimal (GetCirculatingSupply halvingReward (Some (210099 + 1)))
       = Some (c + halvingReward 1).
Proof.
  apply (circulating_grows_by_sampled_reward halvingReward 210099);
    unfold coinbaseMaturity; lia.
Defined.

(** X24.  If every block reward lies between 0 and [cap], then at every tip
    the total supply lies between 0 and [tip * cap], and the circulating
    supply between 0 and [(tip - 100) * cap]. *)
Theorem supply_bounded_by_cap (calcBlockReward : Z -> Z) (cap tip : Z) :
  (forall block, 0 <= calcBlockReward block <= cap) ->
  isUint64 tip ->
  exists t c,
    parseDecimal (GetTotalSupply calcBlockReward (Some tip)) = Some t
    /\ parseDecimal (GetCirculatingSupply calcBlockReward (Some tip)) = Some c
    /\ 0 <= t <= tip * cap
    /\ 0 <= c <= Z.max 0 (tip - coinbaseMaturity) * cap.
Proof.
  intros Hr Htip.
  do 2 eexists.
  rewrite GetTotalSupply_emissions, parseDecimal_bigString by assumption.
  rewrite GetCirculatingSupply_value by assumption.
  split; [reflexivity|]. split; [reflexivity|]. split.
  - destruct (Z_lt_ge_dec tip halvingInterval) as [Hlt|Hge].
    + destruct (totalEmissions_first_era_partial calcBlockReward tip
                  ltac:(unfold isUint64 in Htip; lia)) as [_ E].
      rewrite totalEmissions_vs_matured by assumption.
      destruct (Z.leb_spec halvingInterval tip); [lia|].
      rewrite Z.sub_0_r. now apply maturedEmissions_bounded.
    + rewrite totalEmissions_as_matured by (auto; lia).
      apply maturedEmissions_bounded; [|assumption].
      intros block. destruct (block =? 1); apply Hr.
  - apply maturedEmissions_bounded; [assumption|].
    unfold isUint64, coinbaseMaturity in *. lia.
Qed.

Lemma supply_bounded_by_cap_witness :
  exists t c,
    parseDecimal (GetTotalSupply (fun block => Z.min 50 (Z.max 0 block))
                    (Some 1000000)) = Some t
    /\ parseDecimal (GetCirculatingSupply
                       (fun block => Z.min 50 (Z.max 0 block))
                       (Some 1000000)) = Some c
    /\ 0 <= t <= 1000000 * 50
    /\ 0 <= c <= Z.max 0 (1000000 - coinbaseMaturity) * 50.
Proof.
  apply (supply_bounded_by_cap (fun block => Z.min 50 (Z.max 0 block)) 50
           1000000).
  - intros block. lia.
  - unfold isUint64. lia.
Defined.
